(** * rANS Nx16 decoder of noodles-cram (codecs/rans_nx16/decode.rs)

    A shallow embedding of the Nx16 decode pipeline.  A byte reader
    ([R: Read] over a slice) is a list of bytes; reading is a state and
    error monad over that list.  Rust's [io::Result] errors are [Err] with
    the [io::ErrorKind]; a Rust panic (out-of-bounds index, arithmetic
    overflow in a debug build) is the separate outcome [Panic]. *)

From Stdlib Require Import List Arith NArith Lia Bool.
From Stdlib Require Import Init.Byte Strings.Byte.
Import ListNotations.

(** ** Results and the reader monad *)

Inductive ErrorKind := UnexpectedEof | InvalidData.

Inductive result (A : Type) : Type :=
| Ok (a : A)
| Err (e : ErrorKind)
| Panic.
Arguments Ok {A} a.
Arguments Err {A} e.
Arguments Panic {A}.

(** A reader computation: the reader is the list of unread bytes. *)
Definition M (A : Type) : Type := list byte -> result (A * list byte).

Definition ret {A} (a : A) : M A := fun s => Ok (a, s).

Definition bind {A B} (c : M A) (k : A -> M B) : M B :=
  fun s => match c s with
           | Ok (a, s') => k a s'
           | Err e => Err e
           | Panic => Panic
           end.

Notation "x <- c ;; k" := (bind c (fun x => k))
  (at level 61, c at next level, right associativity).

Definition throw {A} (e : ErrorKind) : M A := fun _ => Err e.
Definition crash {A} : M A := fun _ => Panic.

(** Lift a pure fallible computation (no reads) into the reader monad. *)
Definition lift {A} (r : result A) : M A :=
  fun s => match r with
           | Ok a => Ok (a, s)
           | Err e => Err e
           | Panic => Panic
           end.

(** [reader.read_u8()] *)
Definition read_u8 : M nat :=
  fun s => match s with
           | [] => Err UnexpectedEof
           | b :: s' => Ok (Byte.to_nat b, s')
           end.

(** [reader.read_exact(&mut vec![0; k])]: fills [k] bytes or fails with
    [UnexpectedEof]. *)
Definition read_exact (k : nat) : M (list byte) :=
  fun s => if length s <? k then Err UnexpectedEof
           else Ok (firstn k s, skipn k s).

(** [reader.read_u16::<LittleEndian>()] (a [read_exact] of two bytes). *)
Definition read_u16_le : M N :=
  bs <- read_exact 2 ;;
  match bs with
  | [b0; b1] => ret (N.of_nat (Byte.to_nat b0) + 256 * N.of_nat (Byte.to_nat b1))%N
  | _ => crash
  end.

(** Modelled from the spec: [crate::reader::num::read_uint7] (not in the
    sources).  "Variable-length integer: base-128, low 7 bits per byte,
    high bit = continuation"; the 7-bit groups are taken most significant
    first, as in the CRAM codec format.  The value is unbounded; the
    conversion to [usize] is done by the callers. *)
Fixpoint uint7_go (acc : N) (s : list byte) : result (N * list byte) :=
  match s with
  | [] => Err UnexpectedEof
  | b :: s' =>
      let v := N.of_nat (Byte.to_nat b) in
      let acc' := (acc * 128 + N.land v 127)%N in
      if N.eqb (N.land v 128) 0 then Ok (acc', s') else uint7_go acc' s'
  end.

Definition read_uint7 : M N := fun s => uint7_go 0%N s.

Section Platform.

(** Width in bits of the platform's [usize]. *)
Variable W : nat.

(** [usize::try_from(n).map_err(|e| io::Error::new(InvalidData, e))] *)
Definition usize_try_from (v : N) : M nat :=
  if (v <? 2 ^ N.of_nat W)%N then ret (N.to_nat v) else throw InvalidData.

(** [read_uint7(reader).and_then(|n| usize::try_from(n) ...)] *)
Definition read_usize : M nat := v <- read_uint7 ;; usize_try_from v.

End Platform.

(** ** Flags

    Modelled from the spec: [super::Flags] (not in the sources).  The
    named capabilities ORDER, NO_SIZE, STRIPE, PACK, RLE, CAT and N32 as
    bits of the flag byte: ORDER = 0x01, STRIPE = 0x08, CAT = 0x20,
    RLE = 0x40 and PACK = 0x80 as in the spec's test vectors; N32 = 0x04
    and NO_SIZE = 0x10 as in the CRAM codec format. *)
Definition ORDER := 0.
Definition N32 := 2.
Definition STRIPE := 3.
Definition NO_SIZE := 4.
Definition CAT := 5.
Definition RLE := 6.
Definition PACK := 7.

(** [flags.contains(f)] *)
Definition contains (flags f : nat) : bool := Nat.testbit flags f.

(** ** Lists used as fixed-size arrays and vectors *)

(** [v[k] = x] on a vector: out of range is a panic. *)
Fixpoint set_nth {A} (l : list A) (k : nat) (x : A) : option (list A) :=
  match l, k with
  | [], _ => None
  | _ :: l', 0 => Some (x :: l')
  | y :: l', S k' => option_map (cons y) (set_nth l' k' x)
  end.

(** ** rANS arithmetic ([u32] values as [N]) *)

(** [rans_get_symbol_from_freq]: the [while] loop runs at most 255 times
    (it stops at [sym = 255]); [fuel] counts the iterations left. *)
Fixpoint symbol_scan (cumulative_freqs : list N) (freq : N) (fuel sym : nat)
  : result nat :=
  match fuel with
  | 0 => Ok sym
  | S fuel' =>
      if sym <? 255 then
        match nth_error cumulative_freqs (sym + 1) with
        | None => Panic
        | Some c => if (c <=? freq)%N
                    then symbol_scan cumulative_freqs freq fuel' (sym + 1)
                    else Ok sym
        end
      else Ok sym
  end.

Definition rans_get_symbol_from_freq (cumulative_freqs : list N) (freq : N)
  : result nat :=
  symbol_scan cumulative_freqs freq 255 0.

(** [rans_renorm_nx16]: [(r << 16)] drops the bits shifted out of a
    [u32]; the [+] is overflow-checked (it cannot overflow here since
    [r < 2^15]). *)
Definition rans_renorm_nx16 (r : N) : M N :=
  if (r <? 2 ^ 15)%N then
    w <- read_u16_le ;;
    let v := (N.shiftl r 16 mod 2 ^ 32 + w)%N in
    if (v <? 2 ^ 32)%N then ret v else crash
  else ret r.

(** ** The alphabet reader ([read_alphabet]) *)

Section Alphabet.

(** Whether the build checks [u8] arithmetic for overflow ([true] in a
    debug build: overflow panics; [false] in a release build: it wraps). *)
Variable overflow_checks : bool.

(** [x += 1] on a [u8]. *)
Definition u8_incr (x : nat) : M nat :=
  if x <? 255 then ret (S x) else if overflow_checks then crash else ret 0.

(** Loop state: [(alphabet, sym, last_sym, rle)]. *)
Definition alpha_state : Type := (list bool * nat * nat * nat)%type.

(** One iteration of the [loop]; [true] in the first component means
    [break]. *)
Definition alpha_step (st : alpha_state) : M (bool * alpha_state) :=
  let '(alphabet, sym, last_sym, rle) := st in
  match set_nth alphabet sym true with
  | None => crash
  | Some alphabet =>
      p <-
        (if 0 <? rle then
           sym' <- u8_incr sym ;; ret (sym', rle - 1)
         else
           sym' <- read_u8 ;;
           if (last_sym <? 255) && (sym' =? last_sym + 1) then
             rle' <- read_u8 ;; ret (sym', rle')
           else ret (sym', rle)) ;;
      let '(sym, rle) := p in
      let last_sym := sym in
      ret (sym =? 0, (alphabet, sym, last_sym, rle))
  end.

(** The loop, run for at most [fuel] iterations (each iteration reads a
    byte or decrements [rle], so [256 * (1 + length input)] iterations
    always suffice). *)
Fixpoint alpha_loop (fuel : nat) (st : alpha_state) : M (list bool) :=
  match fuel with
  | 0 => crash
  | S fuel' =>
      r <- alpha_step st ;;
      let '(brk, st') := r in
      if brk then let '(alphabet, _, _, _) := st' in ret alphabet
      else alpha_loop fuel' st'
  end.

Definition read_alphabet : M (list bool) :=
  fun s =>
    (sym <- read_u8 ;;
     alpha_loop (256 * S (length s)) (repeat false 256, sym, sym, 0)) s.

End Alphabet.

(** ** Core decoders as reader programs

    Modelled from the spec: [order_0::decode] and [order_1::decode] (not
    in the sources).  Each fills the preallocated buffer [data] (a slice of
    the working length) from the reader, reading one byte at a time, and
    fails on a short read with [UnexpectedEof] (§4.2, §4.3, §7).  The
    decoders are kept abstract: any program of type [Prog] reads the
    reader only through such reads, may fail with any error or panic, and
    delivers the final contents of the buffer as a function of the
    index. *)
Inductive Prog (A : Type) : Type :=
| PRet (a : A)
| PRead (k : byte -> Prog A)
| PThrow (e : ErrorKind)
| PCrash.
Arguments PRet {A} a.
Arguments PRead {A} k.
Arguments PThrow {A} e.
Arguments PCrash {A}.

Fixpoint run_prog {A} (p : Prog A) : M A :=
  fun s =>
    match p with
    | PRet a => Ok (a, s)
    | PRead k => match s with
                 | [] => Err UnexpectedEof
                 | b :: s' => run_prog (k b) s'
                 end
    | PThrow e => Err e
    | PCrash => Panic
    end.

(** A core decoder: given the buffer length and the lane count [n]. *)
Definition core_decoder : Type := nat -> nat -> Prog (nat -> byte).

(** [dec::decode(reader, &mut data, n)] with [data = vec![0; len]]. *)
Definition run_core (dec : core_decoder) (len n : nat) : M (list byte) :=
  f <- run_prog (dec len n) ;; ret (map f (seq 0 len)).

(** Run a reader computation over an owned buffer ([&buf[..]] or a
    [Cursor]); the main reader is not touched. *)
Definition run_on {A} (c : M A) (buf : list byte) : M (A * list byte) :=
  lift (c buf).

(** ** Fallible pure code *)

Definition rbind {A B} (r : result A) (k : A -> result B) : result B :=
  match r with
  | Ok a => k a
  | Err e => Err e
  | Panic => Panic
  end.

(** [u32] arithmetic as compiled: with [overflow_checks] (a debug build)
    an overflowing [+], [-], [*] or a shift by 32 or more panics; without
    them (a release build) [+], [-], [*] wrap modulo [2^32] and a shift
    amount is taken modulo 32. *)
Section U32.

Variable overflow_checks : bool.

Definition u32_wrap (v : N) : result N :=
  if (v <? 2 ^ 32)%N then Ok v
  else if overflow_checks then Panic else Ok (v mod 2 ^ 32)%N.

(** [a + b] *)
Definition u32_add (a b : N) : result N := u32_wrap (a + b).

(** [a * b] *)
Definition u32_mul (a b : N) : result N := u32_wrap (a * b).

(** [a - b] *)
Definition u32_sub (a b : N) : result N :=
  if (b <=? a)%N then Ok (a - b)%N
  else if overflow_checks then Panic else Ok (a + 2 ^ 32 - b)%N.

(** [a << k] *)
Definition u32_shl (a k : N) : result N :=
  if (k <? 32)%N then Ok (a * 2 ^ k mod 2 ^ 32)%N
  else if overflow_checks then Panic else Ok (a * 2 ^ (k mod 32) mod 2 ^ 32)%N.

(** [a >> k] *)
Definition u32_shr (a k : N) : result N :=
  if (k <? 32)%N then Ok (a / 2 ^ k)%N
  else if overflow_checks then Panic else Ok (a / 2 ^ (k mod 32))%N.

(** [rans_get_cumulative_freq_nx16]: [r & ((1 << bits) - 1)] *)
Definition rans_get_cumulative_freq_nx16 (r bits : N) : result N :=
  rbind (u32_shl 1 bits) (fun m =>
  rbind (u32_sub m 1) (fun mask =>
  Ok (N.land r mask))).

(** [rans_advance_step_nx16]: [f * (r >> bits) + (r & ((1 << bits) - 1)) - c] *)
Definition rans_advance_step_nx16 (r c f bits : N) : result N :=
  rbind (u32_shr r bits) (fun q =>
  rbind (u32_mul f q) (fun a =>
  rbind (u32_shl 1 bits) (fun m =>
  rbind (u32_sub m 1) (fun mask =>
  rbind (u32_add a (N.land r mask)) (fun b =>
  u32_sub b c))))).

End U32.

(** ** PACK expansion

    Modelled from the spec: [pack::decode] (not in the sources).  §4.4:
    the entropy-decoded buffer holds fixed-width codes, several per byte
    (low bits first), mapped back through the [n_sym]-entry symbol table;
    the output must reach exactly the declared pre-pack length.  The code
    widths 0, 1, 2 and 4 bits for at most 1, 2, 4 and 16 symbols are those
    of the repository's own test vector (6 symbols, 7 bytes packed into
    4); more than 16 symbols is a data error. *)
Definition pack_width (n_sym : nat) : option nat :=
  if n_sym <=? 1 then Some 0
  else if n_sym <=? 2 then Some 1
  else if n_sym <=? 4 then Some 2
  else if n_sym <=? 16 then Some 4
  else None.

Definition pack_code (src : list byte) (w i : nat) : result nat :=
  if w =? 0 then Ok 0 else
  match nth_error src (i * w / 8) with
  | None => Err InvalidData
  | Some b => Ok (Nat.land (Nat.shiftr (Byte.to_nat b) (i * w mod 8)) (2 ^ w - 1))
  end.

Fixpoint pack_fields (src p : list byte) (w : nat) (is : list nat)
  : result (list byte) :=
  match is with
  | [] => Ok []
  | i :: is' =>
      rbind (pack_code src w i) (fun c =>
      match nth_error p c with
      | None => Err InvalidData
      | Some sym => rbind (pack_fields src p w is') (fun rest => Ok (sym :: rest))
      end)
  end.

Definition pack_decode (src p : list byte) (n_sym len : nat) : result (list byte) :=
  match pack_width n_sym with
  | None => Err InvalidData
  | Some w => pack_fields src p w (seq 0 len)
  end.

(** ** RLE expansion

    Modelled from the spec: [rle::decode] (not in the sources).  §4.5:
    walk the core-decoded bytes; a symbol flagged in [l] is followed by a
    run count read from the meta stream (a variable-length integer) and
    is repeated [count + 1] times; other symbols pass once.  The output
    length must equal the declared pre-RLE length ("excess or shortfall is
    a decode error"). *)
Fixpoint rle_expand (l : list bool) (src meta : list byte) : result (list byte) :=
  match src with
  | [] => Ok []
  | b :: src' =>
      if nth (Byte.to_nat b) l false then
        rbind (uint7_go 0 meta) (fun '(run, meta') =>
        rbind (rle_expand l src' meta') (fun rest =>
        Ok (repeat b (S (N.to_nat run)) ++ rest)))
      else rbind (rle_expand l src' meta) (fun rest => Ok (b :: rest))
  end.

Definition rle_decode (src : list byte) (l : list bool) (meta : list byte)
  (len : nat) : result (list byte) :=
  rbind (rle_expand l src meta) (fun dst =>
  if length dst =? len then Ok dst else Err InvalidData).

(** ** Meta readers, stripes and the orchestrator *)

Section Decode.

Variable W : nat.
Variables order_0 order_1 : core_decoder.

(** [decode_pack_meta] *)
Definition decode_pack_meta : M (list byte * nat * nat) :=
  symbol_count <- read_u8 ;;
  if symbol_count =? 0 then throw InvalidData else
  p <- read_exact symbol_count ;;
  len <- read_usize W ;;
  ret (p, symbol_count, len).

(** [for _ in 0..m { let s = rle_meta_reader.read_u8()?; l[s] = true; }] *)
Fixpoint mark_symbols (m : nat) (l : list bool) : M (list bool) :=
  match m with
  | 0 => ret l
  | S m' =>
      s <- read_u8 ;;
      match set_nth l s true with
      | None => crash
      | Some l' => mark_symbols m' l'
      end
  end.

(** The part of [decode_rle_meta] that reads the meta cursor. *)
Definition read_rle_symbols : M (list bool) :=
  m <- read_u8 ;;
  let m := if m =? 0 then 256 else m in
  mark_symbols m (repeat false 256).

(** [decode_rle_meta]: returns [l], the rest of the meta cursor and the
    pre-RLE length. *)
Definition decode_rle_meta (n : nat) : M (list bool * list byte * nat) :=
  rle_meta_len <- read_usize W ;;
  len <- read_usize W ;;
  rle_meta <-
    (if Nat.odd rle_meta_len then read_exact (rle_meta_len / 2)
     else
       comp_meta_len <- read_usize W ;;
       buf <- read_exact comp_meta_len ;;
       r <- run_on (run_core order_0 (rle_meta_len / 2) n) buf ;;
       ret (fst r)) ;;
  r <- run_on read_rle_symbols rle_meta ;;
  let '(l, rle_meta_reader) := r in
  ret (l, rle_meta_reader, len).

(** [for _ in 0..x { clens.push(read_uint7 -> usize) }] *)
Fixpoint read_clens (k : nat) : M (list nat) :=
  match k with
  | 0 => ret []
  | S k' => c <- read_usize W ;; cs <- read_clens k' ;; ret (c :: cs)
  end.

(** The per-stripe loop of [rans_decode_stripe]: for [j] in [js], compute
    [ulen] and call the top-level decoder [dec] on it; collects the pairs
    [(ulens[j], t[j])]. *)
Fixpoint decode_chunks (dec : nat -> M (list byte)) (len x n : nat)
  (js : list nat) : M (list (nat * list byte)) :=
  match js with
  | [] => ret []
  | j :: js' =>
      let ulen := len / x + (if j <? len mod n then 1 else 0) in
      chunk <- dec ulen ;;
      rest <- decode_chunks dec len x n js' ;;
      ret ((ulen, chunk) :: rest)
  end.

(** [for i in 0..ulens[j] { dst[i * n + j] = t[j][i]; }]: [None] is the
    panic of an out-of-bounds index. *)
Fixpoint write_chunk (n j : nat) (chunk : list byte) (is : list nat)
  (dst : list byte) : option (list byte) :=
  match is with
  | [] => Some dst
  | i :: is' =>
      match nth_error chunk i with
      | None => None
      | Some v =>
          match set_nth dst (i * n + j) v with
          | None => None
          | Some dst' => write_chunk n j chunk is' dst'
          end
      end
  end.

(** [for j in 0..x { ... }] over the collected [(ulens[j], t[j])]. *)
Fixpoint interleave (n : nat) (ts : list (nat * list byte)) (j : nat)
  (dst : list byte) : option (list byte) :=
  match ts with
  | [] => Some dst
  | (ulen, chunk) :: ts' =>
      match write_chunk n j chunk (seq 0 ulen) dst with
      | None => None
      | Some dst' => interleave n ts' (S j) dst'
      end
  end.

(** [rans_decode_stripe], with the recursive call to [decode] as [dec]. *)
Definition rans_decode_stripe (dec : nat -> M (list byte)) (len n : nat)
  : M (list byte) :=
  x <- read_u8 ;;
  _ <- read_clens x ;;
  ts <- decode_chunks dec len x n (seq 0 x) ;;
  match interleave n ts 0 (repeat Byte.x00 len) with
  | None => crash
  | Some dst => ret dst
  end.

(** [decode], with a recursion budget: every level reads its flag byte
    before recursing, so [1 + length input] levels always suffice. *)
Fixpoint decode_fuel (fuel : nat) (len : nat) : M (list byte) :=
  match fuel with
  | 0 => crash
  | S fuel' =>
      flags <- read_u8 ;;
      len <- (if contains flags NO_SIZE then ret len else read_usize W) ;;
      let n := if contains flags N32 then 32 else 4 in
      if contains flags STRIPE then rans_decode_stripe (decode_fuel fuel') len n
      else
      pm <- (if contains flags PACK
             then m <- decode_pack_meta ;; ret (Some m) else ret None) ;;
      let pack_len := len in
      let len := match pm with Some (_, _, new_len) => new_len | None => len end in
      rm <- (if contains flags RLE
             then m <- decode_rle_meta n ;; ret (Some m) else ret None) ;;
      let rle_len := len in
      let len := match rm with Some (_, _, new_len) => new_len | None => len end in
      data <- (if contains flags CAT then read_exact len
               else if contains flags ORDER then run_core order_1 len n
               else run_core order_0 len n) ;;
      data <- (match rm with
               | Some (l, rle_meta, _) => lift (rle_decode data l rle_meta rle_len)
               | None => ret data
               end) ;;
      data <- (match pm with
               | Some (p, n_sym, _) => lift (pack_decode data p n_sym pack_len)
               | None => ret data
               end) ;;
      ret data
  end.

(** [decode(reader, len)] *)
Definition decode (len : nat) : M (list byte) :=
  fun s => decode_fuel (S (length s)) len s.

End Decode.

(** Byte strings written as numbers. *)
Definition bytes (l : list nat) : list byte :=
  map (fun k => match Byte.of_nat k with Some b => b | None => Byte.x00 end) l.

(** A core decoder that is never expected to run. *)
Definition no_core : core_decoder := fun _ _ => PThrow InvalidData.

(** ** Vocabulary for the statements *)

(** The byte string "noodles". *)
Definition noodles : list byte := bytes [110; 111; 111; 100; 108; 101; 115].

(** Perform the writes [dst[k] = v] in order; [None] if one is out of
    range. *)
Fixpoint apply_writes (ws : list (nat * byte)) (dst : list byte)
  : option (list byte) :=
  match ws with
  | [] => Some dst
  | (k, v) :: ws' =>
      match set_nth dst k v with
      | None => None
      | Some dst' => apply_writes ws' dst'
      end
  end.

(** [calls dec ls s ts s']: calling [dec] successively with the lengths
    [ls], starting on the reader [s], returns the buffers [ts] and leaves
    the reader at [s']. *)
Inductive calls (dec : nat -> M (list byte))
  : list nat -> list byte -> list (list byte) -> list byte -> Prop :=
| calls_nil s : calls dec [] s [] s
| calls_cons l ls s s1 s' t ts :
    dec l s = Ok (t, s1) -> calls dec ls s1 ts s' -> calls dec (l :: ls) s (t :: ts) s'.

(** A reader computation is robust to truncation when a successful run
    consumes a prefix [u] of its input, gives the same result whatever
    follows [u], and fails with [UnexpectedEof] on every proper prefix of
    [u]. *)
Definition Robust {A} (c : M A) : Prop :=
  forall s a s', c s = Ok (a, s') ->
    exists u, s = u ++ s' /\
      (forall t, c (u ++ t) = Ok (a, t)) /\
      (forall p q, u = p ++ q -> q <> [] -> c p = Err UnexpectedEof).

(** Each iteration of the [read_alphabet] loop reads a byte or decrements
    the pending run: [256 * (unread bytes) + rle] decreases. *)
Definition alpha_measure (st : alpha_state) (s : list byte) : nat :=
  let '(_, _, _, rle) := st in 256 * length s + rle.

(** * Properties *)

(** ** Generic facts about the reader monad *)

Lemma bind_ok {A B} (c : M A) (k : A -> M B) s a s' :
  c s = Ok (a, s') -> bind c k s = k a s'.
Proof. unfold bind. intros ->. reflexivity. Qed.

Lemma bind_inv {A B} (c : M A) (k : A -> M B) s b s' :
  bind c k s = Ok (b, s') ->
  exists a s1, c s = Ok (a, s1) /\ k a s1 = Ok (b, s').
Proof.
  unfold bind. destruct (c s) as [[a s1]| |]; intros H; try discriminate.
  eauto.
Qed.

Ltac inv_bind H :=
  let a := fresh "a" in let s1 := fresh "s" in
  let H1 := fresh "Hc" in let H2 := fresh "Hk" in
  apply bind_inv in H; destruct H as (a & s1 & H1 & H2).

Lemma pow2_W_ge_8 W : 3 <= W -> (8 <= 2 ^ N.of_nat W)%N.
Proof.
  intros HW. replace (N.of_nat W) with (3 + N.of_nat (W - 3))%N by lia.
  rewrite N.pow_add_r. change (2 ^ 3)%N with 8%N.
  pose proof (N.pow_nonzero 2 (N.of_nat (W - 3))). lia.
Qed.

Lemma read_usize_ok W s v s' :
  read_uint7 s = Ok (v, s') -> (v < 2 ^ N.of_nat W)%N ->
  read_usize W s = Ok (N.to_nat v, s').
Proof.
  intros H Hv. unfold read_usize. rewrite (bind_ok _ _ _ _ _ H).
  unfold usize_try_from. apply N.ltb_lt in Hv. rewrite Hv. reflexivity.
Qed.

Lemma read_usize_too_big W s v s' :
  read_uint7 s = Ok (v, s') -> (2 ^ N.of_nat W <= v)%N ->
  read_usize W s = Err InvalidData.
Proof.
  intros H Hv. unfold read_usize. rewrite (bind_ok _ _ _ _ _ H).
  unfold usize_try_from. apply N.ltb_ge in Hv. rewrite Hv. reflexivity.
Qed.

(** ** C10: zero stripes *)

(** C10: when the STRIPE flag is set and the stripe-count byte is 0,
    [decode] succeeds with [len] zero bytes, where [len] is the length the
    header yields (the hint under NO_SIZE, the in-stream value otherwise),
    and consumes nothing after the stripe-count byte. *)
Theorem decode_stripe_zero_count W order_0 order_1 (b : byte) s len len' rest :
  contains (Byte.to_nat b) STRIPE = true ->
  (if contains (Byte.to_nat b) NO_SIZE then ret len else read_usize W) s
    = Ok (len', Byte.x00 :: rest) ->
  decode W order_0 order_1 len (b :: s) = Ok (repeat Byte.x00 len', rest).
Proof.
  intros Hs Hh. unfold decode. cbn [decode_fuel].
  erewrite bind_ok by reflexivity. cbv beta.
  erewrite bind_ok by exact Hh.
  rewrite Hs. reflexivity.
Qed.

(** ** C4: symbol lookup in the cumulative table *)

Section SymbolLookup.

Variable cum : list N.
Variable freq : N.

Lemma cum_monotone :
  (forall i, i < 256 -> (nth i cum 0 <= nth (S i) cum 0)%N) ->
  forall j i, j <= i -> i <= 256 -> (nth j cum 0 <= nth i cum 0)%N.
Proof.
  intros Hm j i Hji. induction Hji as [|i Hji IH]; intros Hi.
  - lia.
  - specialize (Hm i ltac:(lia)). specialize (IH ltac:(lia)). lia.
Qed.

Lemma symbol_scan_last fuel sym :
  length cum = 257 ->
  (forall i, i < 256 -> (nth i cum 0 <= nth (S i) cum 0)%N) ->
  sym + fuel = 255 ->
  (nth sym cum 0 <= freq)%N ->
  exists s, symbol_scan cum freq fuel sym = Ok s /\ s <= 255 /\
            (nth s cum 0 <= freq)%N /\
            (forall i, s < i <= 255 -> (freq < nth i cum 0)%N).
Proof.
  intros Hlen Hm. revert sym. induction fuel as [|fuel IH]; intros sym Hf Hs.
  - exists sym. simpl. repeat split; auto; lia.
  - simpl. replace (sym <? 255) with true by (symmetry; apply Nat.ltb_lt; lia).
    destruct (nth_error cum (sym + 1)) as [c|] eqn:Hc.
    + apply nth_error_nth with (d := 0%N) in Hc.
      destruct (c <=? freq)%N eqn:Hle.
      * apply N.leb_le in Hle. apply IH; [lia|]. rewrite Hc. exact Hle.
      * apply N.leb_gt in Hle. exists sym. repeat split; auto; try lia.
        intros i Hi. pose proof (cum_monotone Hm (sym + 1) i ltac:(lia) ltac:(lia)).
        lia.
    + apply nth_error_None in Hc. lia.
Qed.

End SymbolLookup.

(** C4: for a 257-entry cumulative table that is monotone, starts at 0
    and ends at the total, and a slot below the total, the lookup does
    not panic and returns the last index (at most 255) whose cumulative
    value is at most the slot; equal cumulative values resolve to the
    higher index. *)
Theorem rans_get_symbol_from_freq_last (cum : list N) (total freq : N) :
  length cum = 257 ->
  (forall i, i < 256 -> (nth i cum 0 <= nth (S i) cum 0)%N) ->
  nth 0 cum 0%N = 0%N ->
  nth 256 cum 0%N = total ->
  (freq < total)%N ->
  exists s, rans_get_symbol_from_freq cum freq = Ok s /\ s <= 255 /\
            (nth s cum 0 <= freq)%N /\
            (forall i, s < i <= 255 -> (freq < nth i cum 0)%N).
Proof.
  intros Hlen Hm H0 _ _. apply symbol_scan_last; auto. rewrite H0. lia.
Qed.

(** ** C3: lane renormalization *)

(** C3 as stated fails: the state is returned unchanged when it is at
    least [2^15], even if it is not below [2^31]; and a zero state topped
    up with a zero word stays below [2^15]. *)
Lemma rans_renorm_nx16_interval_fails :
  ~ (forall r s r' s', (r < 2 ^ 32)%N -> rans_renorm_nx16 r s = Ok (r', s') ->
                       (2 ^ 15 <= r' < 2 ^ 31)%N) /\
  rans_renorm_nx16 (2 ^ 31) [] = Ok (2 ^ 31, [])%N /\
  rans_renorm_nx16 0 (bytes [0; 0]) = Ok (0, [])%N.
Proof.
  split; [|split; reflexivity].
  intros H. specialize (H (2 ^ 31)%N [] (2 ^ 31)%N [] ltac:(lia) eq_refl). lia.
Qed.

(** C3 (amended): on a 32-bit state [r], renormalization with [r < 2^15]
    reads exactly one little-endian 16-bit word [w] (failing with
    [UnexpectedEof] if fewer than two bytes remain) and returns
    [r * 2^16 + w]; with [r >= 2^15] it reads nothing and returns [r].
    The result lies in [[2^15, 2^31)] whenever [0 < r < 2^31]. *)
Theorem rans_renorm_nx16_spec (r : N) (s : list byte) :
  (r < 2 ^ 32)%N ->
  ((r < 2 ^ 15)%N -> forall b0 b1 s', s = b0 :: b1 :: s' ->
     rans_renorm_nx16 r s =
       Ok (r * 2 ^ 16 + (N.of_nat (Byte.to_nat b0) + 256 * N.of_nat (Byte.to_nat b1)), s')%N) /\
  ((r < 2 ^ 15)%N -> length s < 2 -> rans_renorm_nx16 r s = Err UnexpectedEof) /\
  ((2 ^ 15 <= r)%N -> rans_renorm_nx16 r s = Ok (r, s)) /\
  (forall r' s', rans_renorm_nx16 r s = Ok (r', s') -> (0 < r < 2 ^ 31)%N ->
     (2 ^ 15 <= r' < 2 ^ 31)%N).
Proof.
  intros Hr.
  assert (Hup : (r < 2 ^ 15)%N -> forall b0 b1 s', s = b0 :: b1 :: s' ->
     rans_renorm_nx16 r s =
       Ok (r * 2 ^ 16 + (N.of_nat (Byte.to_nat b0) + 256 * N.of_nat (Byte.to_nat b1)), s')%N).
  { intros Hl b0 b1 s' ->. unfold rans_renorm_nx16.
    apply N.ltb_lt in Hl as Hl'. rewrite Hl'.
    unfold read_u16_le, bind, read_exact, ret.
    cbn -[N.mul N.add N.pow N.shiftl N.modulo N.ltb N.of_nat].
    pose proof (Byte.to_nat_bounded b0). pose proof (Byte.to_nat_bounded b1).
    rewrite N.shiftl_mul_pow2. rewrite N.mod_small by lia.
    replace (_ <? _)%N with true by (symmetry; apply N.ltb_lt; lia).
    reflexivity. }
  split; [exact Hup|]. split; [|split].
  - intros Hl Hs. unfold rans_renorm_nx16. apply N.ltb_lt in Hl. rewrite Hl.
    unfold read_u16_le, bind, read_exact.
    replace (length s <? 2) with true by (symmetry; apply Nat.ltb_lt; lia).
    reflexivity.
  - intros Hl. unfold rans_renorm_nx16. apply N.ltb_ge in Hl. rewrite Hl. reflexivity.
  - intros r' s' H Hb. destruct (N.lt_ge_cases r (2 ^ 15)) as [Hl|Hl].
    + destruct s as [|b0 [|b1 s0]].
      * unfold rans_renorm_nx16 in H. apply N.ltb_lt in Hl. rewrite Hl in H.
        discriminate.
      * unfold rans_renorm_nx16 in H. apply N.ltb_lt in Hl. rewrite Hl in H.
        discriminate.
      * rewrite (Hup Hl b0 b1 s0 eq_refl) in H.
        pose proof (Byte.to_nat_bounded b0). pose proof (Byte.to_nat_bounded b1).
        assert (Hw : (N.of_nat (Byte.to_nat b0) + 256 * N.of_nat (Byte.to_nat b1) < 65536)%N)
          by lia.
        remember (N.of_nat (Byte.to_nat b0) + 256 * N.of_nat (Byte.to_nat b1))%N as w.
        injection H as <- _.
        change (2 ^ 16)%N with 65536%N. change (2 ^ 15)%N with 32768%N in *.
        change (2 ^ 31)%N with 2147483648%N in *. lia.
    + unfold rans_renorm_nx16 in H. apply N.ltb_ge in Hl as Hl'. rewrite Hl' in H.
      injection H as <- _. lia.
Qed.

(** ** C8: pack meta *)

Lemma read_exact_app s1 s2 : read_exact (length s1) (s1 ++ s2) = Ok (s1, s2).
Proof.
  unfold read_exact. rewrite length_app.
  replace (_ <? _) with false by (symmetry; apply Nat.ltb_ge; lia).
  rewrite firstn_app, skipn_app, Nat.sub_diag, firstn_all, skipn_all.
  simpl. rewrite app_nil_r. reflexivity.
Qed.

(** C8 as stated fails: a symbol count of 17 is accepted. *)
Lemma decode_pack_meta_accepts_17 :
  decode_pack_meta 64 (bytes (17 :: repeat 0 17 ++ [0]))
    = Ok ((repeat Byte.x00 17, 17, 0), []).
Proof. reflexivity. Qed.

(** C8 (amended): [decode_pack_meta] reads a 1-byte symbol count, rejects
    0 with [InvalidData] and accepts every other value (1 to 255), then
    reads that many table bytes ([UnexpectedEof] if they are missing),
    then the pre-pack length as a variable-length integer converted to
    [usize]. *)
Theorem decode_pack_meta_spec W (b : byte) (s : list byte) :
  (Byte.to_nat b = 0 -> decode_pack_meta W (b :: s) = Err InvalidData) /\
  (Byte.to_nat b <> 0 -> length s < Byte.to_nat b ->
     decode_pack_meta W (b :: s) = Err UnexpectedEof) /\
  (forall s1 s2, Byte.to_nat b <> 0 -> s = s1 ++ s2 -> length s1 = Byte.to_nat b ->
     decode_pack_meta W (b :: s) =
       (len <- read_usize W ;; ret (s1, Byte.to_nat b, len)) s2).
Proof.
  unfold decode_pack_meta. split; [|split].
  - intros H0. rewrite (bind_ok _ _ _ _ _ (eq_refl : read_u8 (b :: s) = Ok (Byte.to_nat b, s))).
    rewrite H0. reflexivity.
  - intros H0 Hs.
    rewrite (bind_ok _ _ _ _ _ (eq_refl : read_u8 (b :: s) = Ok (Byte.to_nat b, s))).
    apply Nat.eqb_neq in H0. rewrite H0. unfold bind at 1, read_exact.
    apply Nat.ltb_lt in Hs. rewrite Hs. reflexivity.
  - intros s1 s2 H0 -> Hl.
    rewrite (bind_ok _ _ _ _ _ (eq_refl : read_u8 (b :: s1 ++ s2) = Ok (Byte.to_nat b, s1 ++ s2))).
    apply Nat.eqb_neq in H0. rewrite H0.
    assert (Hr : read_exact (Byte.to_nat b) (s1 ++ s2) = Ok (s1, s2))
      by (rewrite <- Hl; apply read_exact_app).
    rewrite (bind_ok _ _ _ _ _ Hr). reflexivity.
Qed.

(** ** C7: the alphabet reader *)

(** C7: a run that continues past symbol 255 is not guarded.  On the
    bytes 0xFE 0xFF 0x02 (symbol 254, symbol 255 continuing it, run byte
    2) the increment [sym += 1] of the [u8] symbol overflows: a debug
    build panics, and a release build wraps the symbol to 0 and stops with
    one run step still pending, without any sentinel 0 in the input. *)
Theorem read_alphabet_run_past_255 :
  read_alphabet true (bytes [254; 255; 2]) = Panic /\
  (exists al, read_alphabet false (bytes [254; 255; 2]) = Ok (al, []) /\
     nth 254 al false = true /\ nth 255 al false = true /\ nth 0 al false = false) /\
  (forall al, exists al',
     alpha_step false (al, 255, 255, 2) [] = Ok ((true, (al', 0, 0, 1)), []) \/
     set_nth al 255 true = None) /\
  u8_incr true 255 [] = Panic.
Proof.
  split; [vm_compute; reflexivity|]. split; [|split].
  - eexists. split; [vm_compute; reflexivity|]. vm_compute. auto.
  - intros al. unfold alpha_step. destruct (set_nth al 255 true) as [al'|].
    + exists al'. left. reflexivity.
    + exists al. right. reflexivity.
  - reflexivity.
Qed.

(** ** Stripes: the write trace of [rans_decode_stripe] *)

Lemma set_nth_length {A} (l : list A) k v l' :
  set_nth l k v = Some l' -> length l' = length l.
Proof.
  revert k l'. induction l as [|y l IH]; intros [|k] l' H; simpl in H; try discriminate.
  - injection H as <-. reflexivity.
  - destruct (set_nth l k v) eqn:E; simpl in H; try discriminate.
    injection H as <-. simpl. f_equal. eauto.
Qed.

Lemma set_nth_nth_error {A} (l : list A) k v l' :
  set_nth l k v = Some l' ->
  nth_error l' k = Some v /\ forall k', k' <> k -> nth_error l' k' = nth_error l k'.
Proof.
  revert k l'. induction l as [|y l IH]; intros [|k] l' H; simpl in H; try discriminate.
  - injection H as <-. split; [reflexivity|]. intros [|k'] Hk; [lia|reflexivity].
  - destruct (set_nth l k v) eqn:E; simpl in H; try discriminate. injection H as <-.
    destruct (IH _ _ E) as [H1 H2]. split; [exact H1|].
    intros [|k'] Hk; [reflexivity|]. simpl. apply H2. lia.
Qed.

Lemma apply_writes_app ws1 ws2 d :
  apply_writes (ws1 ++ ws2) d =
  match apply_writes ws1 d with Some d' => apply_writes ws2 d' | None => None end.
Proof.
  revert d. induction ws1 as [|[k v] ws1 IH]; intros d; simpl; [reflexivity|].
  destruct (set_nth d k v); auto.
Qed.

Lemma flat_map_ext_in {A B} (f g : A -> list B) l :
  (forall a, In a l -> f a = g a) -> flat_map f l = flat_map g l.
Proof.
  induction l as [|a l IH]; intros H; simpl; [reflexivity|].
  rewrite H by (left; reflexivity). f_equal. apply IH. intros; apply H; right; auto.
Qed.

Lemma write_chunk_writes n j chunk is dst d :
  write_chunk n j chunk is dst = Some d ->
  apply_writes (map (fun i => (i * n + j, nth i chunk Byte.x00)) is) dst = Some d.
Proof.
  revert dst. induction is as [|i is IH]; intros dst H; simpl in *; [exact H|].
  destruct (nth_error chunk i) as [v|] eqn:Hv; [|discriminate].
  replace (nth i chunk Byte.x00) with v by (symmetry; eapply nth_error_nth; exact Hv).
  destruct (set_nth dst (i * n + j) v); [|discriminate]. auto.
Qed.

Lemma interleave_writes n all : forall ts pre dst d,
  all = pre ++ ts -> interleave n ts (length pre) dst = Some d ->
  apply_writes
    (flat_map (fun j => map (fun i => (i * n + j, nth i (snd (nth j all (0, []))) Byte.x00))
                            (seq 0 (fst (nth j all (0, [])))))
              (seq (length pre) (length ts))) dst = Some d.
Proof.
  induction ts as [|[u c] ts IH]; intros pre dst d Hall H; simpl in *; [exact H|].
  destruct (write_chunk n (length pre) c (seq 0 u) dst) as [d1|] eqn:E; [|discriminate].
  rewrite apply_writes_app.
  assert (Hn : nth (length pre) all (0, []) = (u, c)) by (rewrite Hall; apply nth_middle).
  rewrite Hn. simpl. rewrite (write_chunk_writes _ _ _ _ _ _ E).
  replace (S (length pre)) with (length (pre ++ [(u, c)])) in *
    by (rewrite length_app; simpl; lia).
  apply IH; [rewrite Hall, <- app_assoc; reflexivity|exact H].
Qed.

Lemma decode_chunks_calls dec len x n js s ts s' :
  decode_chunks dec len x n js s = Ok (ts, s') ->
  calls dec (map (fun j => len / x + (if j <? len mod n then 1 else 0)) js) s (map snd ts) s' /\
  map fst ts = map (fun j => len / x + (if j <? len mod n then 1 else 0)) js.
Proof.
  revert s ts. induction js as [|j js IH]; intros s ts H; simpl in H.
  - injection H as <- <-. split; constructor.
  - apply bind_inv in H as (chunk & s1 & H1 & H2).
    apply bind_inv in H2 as (rest & s2 & H3 & H4).
    unfold ret in H4. injection H4 as <- <-.
    destruct (IH _ _ H3) as [Hc Hf]. simpl. split.
    + econstructor; eauto.
    + f_equal. exact Hf.
Qed.

Lemma nth_map_seq {B} (f : nat -> B) x j d :
  j < x -> nth j (map f (seq 0 x)) d = f j.
Proof.
  intros Hj. rewrite nth_indep with (d' := f 0) by (rewrite length_map, length_seq; lia).
  rewrite (map_nth f (seq 0 x) 0 j), seq_nth by lia. reflexivity.
Qed.

(** The steps of a successful [rans_decode_stripe]. *)
Lemma rans_decode_stripe_inv W dec len n b s dst rest :
  rans_decode_stripe W dec len n (b :: s) = Ok (dst, rest) ->
  exists clens s2 ts,
    read_clens W (Byte.to_nat b) s = Ok (clens, s2) /\
    decode_chunks dec len (Byte.to_nat b) n (seq 0 (Byte.to_nat b)) s2 = Ok (ts, rest) /\
    interleave n ts 0 (repeat Byte.x00 len) = Some dst.
Proof.
  unfold rans_decode_stripe. intros H.
  apply bind_inv in H as (x & s0 & H0 & H).
  simpl in H0. injection H0 as <- <-.
  apply bind_inv in H as (clens & s2 & H1 & H).
  apply bind_inv in H as (ts & s3 & H2 & H).
  destruct (interleave n ts 0 (repeat Byte.x00 len)) as [d|] eqn:E; [|discriminate].
  unfold ret in H. injection H as <- <-.
  exists clens, s2, ts. repeat split; assumption.
Qed.

(** The calls and the writes of a successful [rans_decode_stripe]. *)
Lemma rans_decode_stripe_trace W dec len n (b : byte) (x : nat) s dst rest :
  Byte.to_nat b = x ->
  rans_decode_stripe W dec len n (b :: s) = Ok (dst, rest) ->
  exists clens s2 ts,
    read_clens W x s = Ok (clens, s2) /\
    calls dec (map (fun j => len / x + (if j <? len mod n then 1 else 0)) (seq 0 x)) s2 ts rest /\
    apply_writes
      (flat_map (fun j => map (fun i => (i * n + j, nth i (nth j ts []) Byte.x00))
                              (seq 0 (len / x + (if j <? len mod n then 1 else 0))))
                (seq 0 x))
      (repeat Byte.x00 len) = Some dst.
Proof.
  intros Hx H. apply rans_decode_stripe_inv in H as (clens & s2 & ts & H1 & H2 & H3).
  rewrite Hx in H1, H2.
  destruct (decode_chunks_calls _ _ _ _ _ _ _ _ H2) as [Hc Hf].
  exists clens, s2, (map snd ts). split; [exact H1|]. split; [exact Hc|].
  pose proof (interleave_writes n ts ts [] _ _ eq_refl H3) as Hw. simpl in Hw.
  assert (Hl : length ts = x).
  { rewrite <- (length_map fst), Hf, length_map, length_seq. reflexivity. }
  rewrite Hl in Hw. rewrite <- Hw. f_equal. apply flat_map_ext_in.
  intros j Hj. apply in_seq in Hj.
  assert (Hfst : fst (nth j ts (0, [])) = len / x + (if j <? len mod n then 1 else 0)).
  { rewrite <- (map_nth fst ts (0, []) j), Hf.
    rewrite (nth_map_seq (fun j => len / x + (if j <? len mod n then 1 else 0))) by lia.
    reflexivity. }
  rewrite Hfst. apply map_ext. intros i. f_equal. f_equal.
  change (@nil byte) with (snd (0, @nil byte)) at 1. apply map_nth.
Qed.

(** C2: in a successful stripe decode with [x > 0] stripes, after the [x]
    compressed lengths the decoder is called once per stripe [j], in
    order, with the length [len / x], plus one exactly when
    [len mod n > j] (remainder modulo the lane width [n]); and the output
    is the zero buffer of length [len] after the writes
    [dst[i * n + j] = t_j[i]] for every stripe [j] and every [i] below its
    length, in loop order. *)
Theorem rans_decode_stripe_layout W dec len n (b : byte) (x : nat) s dst rest :
  Byte.to_nat b = x -> 0 < x ->
  rans_decode_stripe W dec len n (b :: s) = Ok (dst, rest) ->
  exists clens s2 ts,
    read_clens W x s = Ok (clens, s2) /\
    calls dec (map (fun j => len / x + (if j <? len mod n then 1 else 0)) (seq 0 x)) s2 ts rest /\
    apply_writes
      (flat_map (fun j => map (fun i => (i * n + j, nth i (nth j ts []) Byte.x00))
                              (seq 0 (len / x + (if j <? len mod n then 1 else 0))))
                (seq 0 x))
      (repeat Byte.x00 len) = Some dst.
Proof. intros Hx _ H. exact (rans_decode_stripe_trace W dec len n b x s dst rest Hx H). Qed.

(** ** C6: stripe coverage *)

Lemma apply_writes_length ws d d' :
  apply_writes ws d = Some d' -> length d' = length d.
Proof.
  revert d. induction ws as [|[k v] ws IH]; intros d H; simpl in H.
  - injection H as <-. reflexivity.
  - destruct (set_nth d k v) as [d1|] eqn:E; [|discriminate].
    rewrite (IH _ H). exact (set_nth_length _ _ _ _ E).
Qed.

Lemma apply_writes_notin ws d d' k :
  apply_writes ws d = Some d' -> ~ In k (map fst ws) -> nth_error d' k = nth_error d k.
Proof.
  revert d. induction ws as [|[k' v] ws IH]; intros d H Hk; simpl in H, Hk.
  - injection H as <-. reflexivity.
  - destruct (set_nth d k' v) as [d1|] eqn:E; [|discriminate].
    rewrite (IH _ H) by tauto. apply (set_nth_nth_error _ _ _ _ E). intros ->. tauto.
Qed.

Lemma apply_writes_in ws d d' k v :
  apply_writes ws d = Some d' -> NoDup (map fst ws) -> In (k, v) ws ->
  nth_error d' k = Some v.
Proof.
  revert d. induction ws as [|[k' v'] ws IH]; intros d H Hnd Hin; simpl in *; [tauto|].
  destruct (set_nth d k' v') as [d1|] eqn:E; [|discriminate].
  inversion Hnd as [|? ? Hk' Hnd']; subst.
  destruct Hin as [Heq|Hin].
  - injection Heq as <- <-. rewrite (apply_writes_notin _ _ _ _ H Hk').
    apply (set_nth_nth_error _ _ _ _ E).
  - eauto.
Qed.

Lemma stripe_index_mod n i j : j < n -> (i * n + j) mod n = j.
Proof.
  intros Hj. rewrite Nat.add_comm, Nat.Div0.mod_add. apply Nat.mod_small. exact Hj.
Qed.

Lemma stripe_index_div n i j : j < n -> (i * n + j) / n = i.
Proof.
  intros Hj. rewrite Nat.div_add_l by lia. rewrite Nat.div_small by exact Hj. lia.
Qed.

Lemma stripe_indices_fst n (u : nat -> nat) (g : nat -> nat -> byte) l :
  map fst (flat_map (fun j => map (fun i => (i * n + j, g j i)) (seq 0 (u j))) l) =
  flat_map (fun j => map (fun i => i * n + j) (seq 0 (u j))) l.
Proof.
  induction l as [|j l IH]; simpl; [reflexivity|].
  rewrite map_app, map_map, IH. reflexivity.
Qed.

Lemma stripe_indices_NoDup n (u : nat -> nat) : forall k a, a + k <= n ->
  NoDup (flat_map (fun j => map (fun i => i * n + j) (seq 0 (u j))) (seq a k)).
Proof.
  induction k as [|k IH]; intros a Hk; simpl; [constructor|].
  apply NoDup_app.
  - apply NoDup_map_NoDup_ForallPairs; [|apply seq_NoDup].
    intros i i' _ _ Heq.
    rewrite <- (stripe_index_div n i a), <- (stripe_index_div n i' a) by lia.
    rewrite Heq. reflexivity.
  - apply IH. lia.
  - intros y Hy Hy'. apply in_map_iff in Hy as (i & <- & _).
    apply in_flat_map in Hy' as (j & Hj & Hy'). apply in_map_iff in Hy' as (i' & Heq & _).
    apply in_seq in Hj.
    assert (Hm : (i' * n + j) mod n = (i * n + a) mod n) by (rewrite Heq; reflexivity).
    rewrite !stripe_index_mod in Hm by lia. lia.
Qed.

Lemma stripe_index_in_range len n j i :
  0 < n -> j < n -> i < len / n + (if j <? len mod n then 1 else 0) -> i * n + j < len.
Proof.
  intros Hn Hj Hi.
  pose proof (Nat.div_mod_eq len n). pose proof (Nat.mod_upper_bound len n ltac:(lia)).
  set (q := len / n) in *. set (r := len mod n) in *.
  destruct (Nat.ltb_spec j r); nia.
Qed.

Lemma stripe_index_covered len n k :
  0 < n -> k < len ->
  k / n < len / n + (if k mod n <? len mod n then 1 else 0).
Proof.
  intros Hn Hk.
  pose proof (Nat.div_mod_eq len n). pose proof (Nat.mod_upper_bound len n ltac:(lia)).
  pose proof (Nat.div_mod_eq k n). pose proof (Nat.mod_upper_bound k n ltac:(lia)).
  set (q := len / n) in *. set (r := len mod n) in *.
  set (i := k / n) in *. set (j := k mod n) in *.
  destruct (Nat.ltb_spec j r); nia.
Qed.

(** C6 (amended): when the stripe count read from the stream equals the
    lane width [n], every pair (stripe [j], position [i]) of a successful
    stripe decode writes inside [[0, len)], every output index [k] is
    written by exactly one pair, namely [(k mod n, k / n)], and the output
    holds there the [(k / n)]-th symbol of stripe [k mod n]. *)
Theorem rans_decode_stripe_exact_cover W dec len n (b : byte) s dst rest :
  Byte.to_nat b = n -> 0 < n ->
  rans_decode_stripe W dec len n (b :: s) = Ok (dst, rest) ->
  length dst = len /\
  (forall j i, j < n -> i < len / n + (if j <? len mod n then 1 else 0) ->
     i * n + j < len) /\
  (forall k, k < len -> exists j i,
     j < n /\ i < len / n + (if j <? len mod n then 1 else 0) /\ i * n + j = k /\
     forall j' i', j' < n -> i' < len / n + (if j' <? len mod n then 1 else 0) ->
       i' * n + j' = k -> j' = j /\ i' = i) /\
  exists clens s2 ts,
    read_clens W n s = Ok (clens, s2) /\
    calls dec (map (fun j => len / n + (if j <? len mod n then 1 else 0)) (seq 0 n)) s2 ts rest /\
    forall k, k < len -> nth_error dst k = Some (nth (k / n) (nth (k mod n) ts []) Byte.x00).
Proof.
  intros Hb Hn H.
  destruct (rans_decode_stripe_trace W dec len n b n s dst rest Hb H)
    as (clens & s2 & ts & H1 & H2 & H3).
  split; [rewrite (apply_writes_length _ _ _ H3), repeat_length; reflexivity|].
  split; [intros j i; apply stripe_index_in_range; exact Hn|].
  split.
  - intros k Hk. exists (k mod n), (k / n).
    split; [apply Nat.mod_upper_bound; lia|].
    split; [apply stripe_index_covered; assumption|].
    split; [rewrite Nat.mul_comm, <- Nat.div_mod_eq; reflexivity|].
    intros j' i' Hj' _ Heq. subst k.
    rewrite stripe_index_mod, stripe_index_div by exact Hj'. split; reflexivity.
  - exists clens, s2, ts. split; [exact H1|]. split; [exact H2|].
    intros k Hk. eapply apply_writes_in; [exact H3| |].
    + rewrite stripe_indices_fst. apply stripe_indices_NoDup. lia.
    + apply in_flat_map. exists (k mod n).
      split; [apply in_seq; pose proof (Nat.mod_upper_bound k n ltac:(lia)); lia|].
      apply in_map_iff. exists (k / n). split.
      * rewrite Nat.mul_comm, <- Nat.div_mod_eq. reflexivity.
      * apply in_seq. pose proof (stripe_index_covered len n k Hn Hk). lia.
Qed.

(** C6 as stated fails for a stripe count other than the lane width.
    With 8 stripes, lane width 4 and 9 output bytes (each stripe a CAT
    block of distinct non-zero bytes) the decode succeeds, but index 4 is
    written twice (by stripe 0 and stripe 4), index 8 by none: the output
    keeps a 0 there and loses byte "B" of stripe 0.  With 1 stripe, lane
    width 4 and 2 output bytes the second write goes to index 4 of a
    2-byte buffer: the call panics instead of failing with an error. *)
Lemma rans_decode_stripe_gap_and_overwrite :
  decode 64 no_core no_core 0
    (bytes [8; 9; 8; 1; 1; 1; 1; 1; 1; 1; 1;
            32; 2; 65; 66; 32; 1; 67; 32; 1; 68; 32; 1; 69; 32; 1; 70;
            32; 1; 71; 32; 1; 72; 32; 1; 73])
    = Ok (bytes [65; 67; 68; 69; 70; 71; 72; 73; 0], []) /\
  flat_map (fun j => map (fun i => i * 4 + j)
                         (seq 0 (9 / 8 + (if j <? 9 mod 4 then 1 else 0))))
           (seq 0 8) = [0; 4; 1; 2; 3; 4; 5; 6; 7] /\
  decode 64 no_core no_core 0 (bytes [8; 2; 1; 1; 32; 3; 65; 66; 67]) = Panic.
Proof. split; [|split]; vm_compute; reflexivity. Qed.

(** ** C1: the length of the decoded buffer *)

Lemma bind_err {A B} (c : M A) (k : A -> M B) s e :
  c s = Err e -> bind c k s = Err e.
Proof. unfold bind. intros ->. reflexivity. Qed.

Lemma read_exact_length k s bs s' : read_exact k s = Ok (bs, s') -> length bs = k.
Proof.
  unfold read_exact. destruct (length s <? k) eqn:E; [discriminate|].
  intros H. injection H as <- _. apply Nat.ltb_ge in E. rewrite length_firstn. lia.
Qed.

Lemma run_core_length dec len n s bs s' :
  run_core dec len n s = Ok (bs, s') -> length bs = len.
Proof.
  unfold run_core. intros H. apply bind_inv in H as (f & s1 & _ & H).
  unfold ret in H. injection H as <- _. rewrite length_map, length_seq. reflexivity.
Qed.

Lemma pack_fields_length src p w is out :
  pack_fields src p w is = Ok out -> length out = length is.
Proof.
  revert out. induction is as [|i is IH]; intros out H; simpl in H.
  - injection H as <-. reflexivity.
  - unfold rbind in H. destruct (pack_code src w i) as [c| |]; try discriminate.
    destruct (nth_error p c) as [sym|]; [|discriminate].
    destruct (pack_fields src p w is) as [rest| |] eqn:E; try discriminate.
    injection H as <-. simpl. f_equal. apply IH. reflexivity.
Qed.

Lemma pack_decode_length src p n_sym len out :
  pack_decode src p n_sym len = Ok out -> length out = len.
Proof.
  unfold pack_decode. destruct (pack_width n_sym) as [w|]; [|discriminate].
  intros H. rewrite (pack_fields_length _ _ _ _ _ H), length_seq. reflexivity.
Qed.

Lemma rle_decode_length src l meta len out :
  rle_decode src l meta len = Ok out -> length out = len.
Proof.
  unfold rle_decode, rbind. destruct (rle_expand l src meta) as [dst| |]; try discriminate.
  destruct (length dst =? len) eqn:E; [|discriminate].
  intros H. injection H as <-. apply Nat.eqb_eq. exact E.
Qed.

Lemma rans_decode_stripe_length W dec len n s dst rest :
  rans_decode_stripe W dec len n s = Ok (dst, rest) -> length dst = len.
Proof.
  destruct s as [|b s]; [discriminate|]. intros H.
  apply rans_decode_stripe_inv in H as (clens & s2 & ts & _ & _ & H).
  pose proof (interleave_writes n ts ts [] _ _ eq_refl H) as Hw.
  rewrite (apply_writes_length _ _ _ Hw), repeat_length. reflexivity.
Qed.

(** One level of [decode]: the output has the length given by the
    header. *)
Lemma decode_fuel_length W order_0 order_1 f len b s buf rest :
  decode_fuel W order_0 order_1 (S f) len (b :: s) = Ok (buf, rest) ->
  exists len' s1,
    (if contains (Byte.to_nat b) NO_SIZE then ret len else read_usize W) s = Ok (len', s1) /\
    length buf = len'.
Proof.
  cbn [decode_fuel]. intros H.
  rewrite (bind_ok _ _ _ _ _ (eq_refl : read_u8 (b :: s) = Ok (Byte.to_nat b, s))) in H.
  apply bind_inv in H as (len' & s1 & Hh & H). exists len', s1. split; [exact Hh|].
  destruct (contains (Byte.to_nat b) STRIPE).
  { exact (rans_decode_stripe_length _ _ _ _ _ _ _ H). }
  apply bind_inv in H as (pm & s2 & Hpm & H).
  apply bind_inv in H as (rm & s3 & Hrm & H).
  apply bind_inv in H as (data & s4 & Hdata & H).
  apply bind_inv in H as (data' & s5 & Hdata' & H).
  apply bind_inv in H as (data'' & s6 & Hdata'' & H).
  unfold ret in H. injection H as <- _.
  destruct pm as [[[p n_sym] plen]|].
  { unfold lift in Hdata''. destruct (pack_decode data' p n_sym len') eqn:E; try discriminate.
    injection Hdata'' as <- _. exact (pack_decode_length _ _ _ _ _ E). }
  unfold ret in Hdata''. injection Hdata'' as <- _.
  destruct rm as [[[l meta] rlen]|].
  { unfold lift in Hdata'. destruct (rle_decode data l meta len') eqn:E; try discriminate.
    injection Hdata' as <- _. exact (rle_decode_length _ _ _ _ _ E). }
  unfold ret in Hdata'. injection Hdata' as <- _.
  destruct (contains (Byte.to_nat b) CAT).
  - exact (read_exact_length _ _ _ _ Hdata).
  - destruct (contains (Byte.to_nat b) ORDER); exact (run_core_length _ _ _ _ _ _ Hdata).
Qed.

(** C1: on a block [b :: s] (flag byte [b]), a successful [decode]
    returns a buffer whose length is the caller's [len] when NO_SIZE is
    set, and otherwise the variable-length value read after the flag
    byte; and when NO_SIZE is absent and that value does not fit in the
    platform's [usize] ([W] bits), [decode] fails with [InvalidData]. *)
Theorem decode_output_length W order_0 order_1 len (b : byte) s :
  (forall buf rest, decode W order_0 order_1 len (b :: s) = Ok (buf, rest) ->
     (contains (Byte.to_nat b) NO_SIZE = true -> length buf = len) /\
     (contains (Byte.to_nat b) NO_SIZE = false ->
        exists v s', read_uint7 s = Ok (v, s') /\ length buf = N.to_nat v)) /\
  (forall v s', contains (Byte.to_nat b) NO_SIZE = false -> read_uint7 s = Ok (v, s') ->
     (2 ^ N.of_nat W <= v)%N -> decode W order_0 order_1 len (b :: s) = Err InvalidData).
Proof.
  split.
  - intros buf rest H. unfold decode in H.
    apply decode_fuel_length in H as (len' & s1 & Hh & Hl).
    split; intros Hns; rewrite Hns in Hh.
    + unfold ret in Hh. injection Hh as <- _. exact Hl.
    + unfold read_usize in Hh. apply bind_inv in Hh as (v & s2 & Hv & Ht).
      exists v, s2. split; [exact Hv|]. rewrite Hl.
      unfold usize_try_from in Ht. destruct (v <? 2 ^ N.of_nat W)%N; [|discriminate].
      unfold ret in Ht. injection Ht as <- _. reflexivity.
  - intros v s' Hns Hv Hbig. unfold decode. cbn [decode_fuel].
    rewrite (bind_ok _ _ _ _ _ (eq_refl : read_u8 (b :: s) = Ok (Byte.to_nat b, s))).
    apply bind_err. rewrite Hns. exact (read_usize_too_big _ _ _ _ Hv Hbig).
Qed.

(** ** C5: truncated input *)

Create HintDb robust.

Lemma robust_ret {A} (a : A) : Robust (ret a).
Proof.
  intros s a' s' H. unfold ret in H. injection H as <- <-. exists [].
  split; [reflexivity|]. split; [reflexivity|].
  intros p q Hpq Hq. destruct p; simpl in Hpq; subst; [contradiction|discriminate].
Qed.

Lemma robust_throw {A} e : Robust (@throw A e).
Proof. intros s a s' H. discriminate. Qed.

Lemma robust_crash {A} : Robust (@crash A).
Proof. intros s a s' H. discriminate. Qed.

Lemma robust_lift {A} (r : result A) : Robust (lift r).
Proof.
  intros s a s' H. unfold lift in *. destruct r as [a'| |]; try discriminate.
  injection H as <- <-. exists []. split; [reflexivity|]. split; [reflexivity|].
  intros p q Hpq Hq. destruct p; simpl in Hpq; subst; [contradiction|discriminate].
Qed.

Lemma robust_read_u8 : Robust read_u8.
Proof.
  intros [|b s] a s' H; [discriminate|]. simpl in H. injection H as <- <-.
  exists [b]. split; [reflexivity|]. split; [reflexivity|].
  intros [|b' p] q Hpq Hq; [reflexivity|].
  injection Hpq as _ Hpq. destruct p, q; simpl in Hpq; try discriminate. contradiction.
Qed.

Lemma robust_read_exact k : Robust (read_exact k).
Proof.
  intros s a s' H. unfold read_exact in H.
  destruct (length s <? k) eqn:E; [discriminate|]. apply Nat.ltb_ge in E.
  injection H as <- <-. exists (firstn k s).
  assert (Hl : length (firstn k s) = k) by (rewrite length_firstn; lia).
  split; [symmetry; apply firstn_skipn|]. split.
  - intros t. rewrite <- Hl at 1. apply read_exact_app.
  - intros p q Hpq Hq. unfold read_exact.
    assert (Hp : length p < k).
    { rewrite <- Hl, Hpq, length_app. destruct q; [contradiction|simpl; lia]. }
    apply Nat.ltb_lt in Hp. rewrite Hp. reflexivity.
Qed.

Lemma robust_bind {A B} (c : M A) (k : A -> M B) :
  Robust c -> (forall a, Robust (k a)) -> Robust (bind c k).
Proof.
  intros Hc Hk s b s' H. apply bind_inv in H as (a & s1 & H1 & H2).
  destruct (Hc _ _ _ H1) as (u & -> & Fc & Pc).
  destruct (Hk a _ _ _ H2) as (v & -> & Fk & Pk).
  exists (u ++ v). split; [apply app_assoc|]. split.
  - intros t. rewrite <- app_assoc, (bind_ok _ _ _ a (v ++ t) (Fc (v ++ t))). apply Fk.
  - intros p q Hpq Hq. apply app_eq_app in Hpq as (l & [[Hu Hq'] | [Hp Hv]]).
    + destruct l as [|x l].
      * rewrite app_nil_r in Hu. subst p. simpl in Hq'. subst q.
        rewrite <- (app_nil_r u), (bind_ok _ _ _ a [] (Fc [])).
        apply (Pk [] v); [reflexivity|exact Hq].
      * apply bind_err. apply (Pc p (x :: l)); [exact Hu|discriminate].
    + subst p. rewrite (bind_ok _ _ _ a l (Fc l)). exact (Pk l q Hv Hq).
Qed.

Lemma robust_uint7_go acc : Robust (fun s => uint7_go acc s).
Proof.
  intros s. revert acc. induction s as [|b s IH]; intros acc a s' H; [discriminate|].
  simpl in H.
  destruct (N.land (N.of_nat (Byte.to_nat b)) 128 =? 0)%N eqn:E.
  - injection H as <- <-. exists [b]. split; [reflexivity|]. split.
    + intros t. simpl. rewrite E. reflexivity.
    + intros [|b' p] q Hpq Hq; [reflexivity|].
      injection Hpq as _ Hpq. destruct p, q; simpl in Hpq; try discriminate. contradiction.
  - destruct (IH _ _ _ H) as (u & -> & F & P). exists (b :: u). split; [reflexivity|]. split.
    + intros t. simpl. rewrite E. apply F.
    + intros [|b' p] q Hpq Hq; [reflexivity|]. injection Hpq as <- Hpq.
      simpl. rewrite E. exact (P p q Hpq Hq).
Qed.

Lemma robust_read_uint7 : Robust read_uint7.
Proof. apply robust_uint7_go. Qed.

Lemma robust_run_prog {A} (pr : Prog A) : Robust (run_prog pr).
Proof.
  induction pr as [a|k IH|e|]; intros s a' s' H.
  - exact (robust_ret a s a' s' H).
  - destruct s as [|b s]; [discriminate|]. simpl in H.
    destruct (IH b _ _ _ H) as (u & -> & F & P). exists (b :: u). split; [reflexivity|]. split.
    + intros t. apply F.
    + intros [|b' p] q Hpq Hq; [reflexivity|]. injection Hpq as <- Hpq.
      exact (P p q Hpq Hq).
  - discriminate.
  - discriminate.
Qed.

#[local] Hint Resolve robust_ret robust_throw robust_crash robust_lift robust_read_u8
  robust_read_exact robust_read_uint7 robust_run_prog : robust.

Ltac solve_robust :=
  repeat match goal with
  | |- Robust (bind _ _) => apply robust_bind; [|intro]
  | |- Robust (if ?b then _ else _) => destruct b
  | |- Robust (match ?x with _ => _ end) => destruct x
  | |- _ => solve [eauto with robust]
  end.

Lemma robust_read_usize W : Robust (read_usize W).
Proof. unfold read_usize, usize_try_from. solve_robust. Qed.
#[local] Hint Resolve robust_read_usize : robust.

Lemma robust_run_core dec len n : Robust (run_core dec len n).
Proof. unfold run_core. solve_robust. Qed.
#[local] Hint Resolve robust_run_core : robust.

Lemma robust_run_on {A} (c : M A) buf : Robust (run_on c buf).
Proof. apply robust_lift. Qed.
#[local] Hint Resolve robust_run_on : robust.

Lemma robust_decode_pack_meta W : Robust (decode_pack_meta W).
Proof. unfold decode_pack_meta. solve_robust. Qed.
#[local] Hint Resolve robust_decode_pack_meta : robust.

Lemma robust_decode_rle_meta W order_0 n : Robust (decode_rle_meta W order_0 n).
Proof. unfold decode_rle_meta. solve_robust. Qed.
#[local] Hint Resolve robust_decode_rle_meta : robust.

Lemma robust_read_clens W k : Robust (read_clens W k).
Proof. induction k; simpl; solve_robust. Qed.
#[local] Hint Resolve robust_read_clens : robust.

Lemma robust_decode_chunks dec len x n js :
  (forall l, Robust (dec l)) -> Robust (decode_chunks dec len x n js).
Proof. intros Hd. induction js; simpl; solve_robust. Qed.

Lemma robust_rans_decode_stripe W dec len n :
  (forall l, Robust (dec l)) -> Robust (rans_decode_stripe W dec len n).
Proof.
  intros Hd. unfold rans_decode_stripe. solve_robust.
  apply robust_decode_chunks. exact Hd.
Qed.

Lemma robust_decode_fuel W order_0 order_1 f len :
  Robust (decode_fuel W order_0 order_1 f len).
Proof.
  revert len. induction f as [|f IH]; intros len; simpl; [apply robust_crash|].
  solve_robust. apply robust_rans_decode_stripe. exact IH.
Qed.

Lemma robust_shrinks {A} (c : M A) s a s' :
  Robust c -> c s = Ok (a, s') -> length s' <= length s.
Proof.
  intros Hc H. destruct (Hc _ _ _ H) as (u & -> & _ & _). rewrite length_app. lia.
Qed.

Lemma bind_congr_first {A B} (c1 c2 : M A) (k : A -> M B) s :
  c1 s = c2 s -> bind c1 k s = bind c2 k s.
Proof. intros E. unfold bind. rewrite E. reflexivity. Qed.

Lemma bind_ext_ok {A B} (c : M A) (k1 k2 : A -> M B) s :
  (forall a s', c s = Ok (a, s') -> k1 a s' = k2 a s') -> bind c k1 s = bind c k2 s.
Proof.
  intros E. unfold bind. destruct (c s) as [[a s']| |] eqn:Hc; auto.
Qed.

Lemma decode_chunks_agree dec1 dec2 L len x n js s :
  (forall l t, length t <= L -> dec1 l t = dec2 l t) ->
  (forall l, Robust (dec1 l)) -> length s <= L ->
  decode_chunks dec1 len x n js s = decode_chunks dec2 len x n js s.
Proof.
  intros Hag Hr. revert s. induction js as [|j js IH]; intros s Hs; [reflexivity|].
  simpl. rewrite (bind_congr_first _ _ _ _ (Hag _ _ Hs)).
  apply bind_ext_ok. intros chunk s' Hc.
  apply bind_congr_first. apply IH.
  rewrite <- (Hag _ _ Hs) in Hc. pose proof (robust_shrinks _ _ _ _ (Hr _) Hc). lia.
Qed.

Lemma rans_decode_stripe_agree W dec1 dec2 L len n s :
  (forall l t, length t <= L -> dec1 l t = dec2 l t) ->
  (forall l, Robust (dec1 l)) -> length s <= L ->
  rans_decode_stripe W dec1 len n s = rans_decode_stripe W dec2 len n s.
Proof.
  intros Hag Hr Hs. unfold rans_decode_stripe.
  apply bind_ext_ok. intros x s1 H1.
  apply bind_ext_ok. intros cl s2 H2.
  apply bind_congr_first. apply (decode_chunks_agree _ _ L); auto.
  pose proof (robust_shrinks _ _ _ _ robust_read_u8 H1).
  pose proof (robust_shrinks _ _ _ _ (robust_read_clens W x) H2). lia.
Qed.

Lemma decode_fuel_stable W order_0 order_1 f1 f2 len s :
  length s < f1 -> length s < f2 ->
  decode_fuel W order_0 order_1 f1 len s = decode_fuel W order_0 order_1 f2 len s.
Proof.
  revert f2 len s. induction f1 as [|f1 IH]; intros f2 len s H1 H2; [lia|].
  destruct f2 as [|f2]; [lia|]. cbn [decode_fuel].
  apply bind_ext_ok. intros flags s1 Hf.
  destruct s as [|b s]; [discriminate|]. injection Hf as _ <-. simpl in H1, H2.
  apply bind_ext_ok. intros len' s2 Hl.
  assert (length s2 <= length s).
  { eapply robust_shrinks; [|exact Hl].
    destruct (contains flags NO_SIZE); [apply robust_ret|apply robust_read_usize]. }
  destruct (contains flags STRIPE); [|reflexivity].
  apply (rans_decode_stripe_agree _ _ _ (length s2)); [|apply robust_decode_fuel|lia].
  intros l t Ht. apply IH; lia.
Qed.

Lemma decode_chunks_mono dec1 dec2 len x n js s r :
  (forall l t r, dec1 l t = Ok r -> dec2 l t = Ok r) ->
  decode_chunks dec1 len x n js s = Ok r -> decode_chunks dec2 len x n js s = Ok r.
Proof.
  intros Hm. revert s r. induction js as [|j js IH]; intros s [v s'] H; [exact H|].
  simpl in *. apply bind_inv in H as (chunk & s1 & H1 & H2).
  apply bind_inv in H2 as (rest & s2 & H2 & H3).
  erewrite bind_ok by (apply Hm; exact H1).
  erewrite bind_ok by (apply IH; exact H2). exact H3.
Qed.

Lemma rans_decode_stripe_mono W dec1 dec2 len n s r :
  (forall l t r, dec1 l t = Ok r -> dec2 l t = Ok r) ->
  rans_decode_stripe W dec1 len n s = Ok r -> rans_decode_stripe W dec2 len n s = Ok r.
Proof.
  intros Hm H. unfold rans_decode_stripe in *. destruct r as [v s'].
  apply bind_inv in H as (x & s1 & H1 & H2). erewrite bind_ok by exact H1.
  apply bind_inv in H2 as (cl & s2 & H2 & H3). erewrite bind_ok by exact H2.
  apply bind_inv in H3 as (ts & s3 & H3 & H4).
  erewrite bind_ok by (eapply decode_chunks_mono; eassumption). exact H4.
Qed.

Lemma decode_fuel_mono W order_0 order_1 f len s r :
  decode_fuel W order_0 order_1 f len s = Ok r ->
  forall f', f <= f' -> decode_fuel W order_0 order_1 f' len s = Ok r.
Proof.
  revert len s r. induction f as [|f IH]; intros len s [v s'] H f' Hf; [discriminate|].
  destruct f' as [|f']; [lia|]. cbn [decode_fuel] in *.
  apply bind_inv in H as (flags & s1 & H1 & H2). erewrite bind_ok by exact H1.
  apply bind_inv in H2 as (len' & s2 & H2 & H3). erewrite bind_ok by exact H2.
  destruct (contains flags STRIPE); [|exact H3].
  eapply rans_decode_stripe_mono; [|exact H3].
  intros l t r' Hr. apply (IH _ _ _ Hr). lia.
Qed.

Lemma robust_decode W order_0 order_1 len : Robust (decode W order_0 order_1 len).
Proof.
  intros s a s' H. unfold decode in H.
  destruct (robust_decode_fuel W order_0 order_1 _ len _ _ _ H) as (u & -> & F & P).
  exists u. split; [reflexivity|]. split.
  - intros t. unfold decode.
    destruct (Nat.le_gt_cases (length (u ++ s')) (length (u ++ t))) as [Hle|Hgt].
    + apply (decode_fuel_mono _ _ _ _ _ _ _ (F t)). lia.
    + rewrite (decode_fuel_stable _ _ _ _ (S (length (u ++ s')))); [apply F|lia|lia].
  - intros p q Hpq Hq. unfold decode.
    rewrite (decode_fuel_stable _ _ _ _ (S (length (u ++ s'))));
      [apply (P p q Hpq Hq)|lia|].
    subst u. rewrite !length_app. lia.
Qed.

(** C5 (modelled from the spec for the core decoders, which are any byte
    reader programs [order_0], [order_1]): if [decode] succeeds on a stream
    [u ++ t], consuming exactly [u], then every proper prefix [p] of the
    consumed part (the stream cut at any point of a header or of a body) makes
    [decode] fail with [UnexpectedEof]: it does not panic and returns no
    buffer. *)
Theorem decode_truncated_eof W order_0 order_1 len u t buf :
  decode W order_0 order_1 len (u ++ t) = Ok (buf, t) ->
  forall p q, u = p ++ q -> q <> [] ->
  decode W order_0 order_1 len p = Err UnexpectedEof.
Proof.
  intros H p q Hpq Hq.
  destruct (robust_decode W order_0 order_1 len _ _ _ H) as (u' & Hu & _ & P).
  apply app_inv_tail in Hu. subst u'.
  exact (P p q Hpq Hq).
Qed.

(** ** C9: CAT blocks are copied verbatim *)

Lemma uint7_one_byte (b : byte) s :
  Byte.to_nat b < 128 -> read_uint7 (b :: s) = Ok (N.of_nat (Byte.to_nat b), s).
Proof.
  destruct b; intros H; first [reflexivity | exfalso; cbv in H; lia].
Qed.

Lemma byte_of_nat_to_nat k :
  k < 256 -> Byte.to_nat (match Byte.of_nat k with Some b => b | None => Byte.x00 end) = k.
Proof.
  intros Hk. destruct (Byte.of_nat k) as [b|] eqn:E.
  - apply Byte.to_of_nat. exact E.
  - apply Byte.of_nat_None_iff in E. lia.
Qed.

(** C9: [decode] on the flag byte 0x20 (CAT), the length byte 0x07 and the
    seven bytes of "noodles" succeeds, consumes the whole input and returns
    those seven bytes unchanged.  More generally, the flag byte 0x20
    followed by a one-byte length [n < 128] and [n] payload bytes decodes
    to exactly those payload bytes, leaving whatever follows them unread
    (for any platform whose [usize] holds the length, any core decoders
    and any length hint). *)
Theorem decode_cat_noodles W order_0 order_1 len :
  3 <= W ->
  decode W order_0 order_1 len (bytes [32; 7] ++ noodles) = Ok (noodles, []) /\
  forall (data t : list byte),
    length data < 128 -> (N.of_nat (length data) < 2 ^ N.of_nat W)%N ->
    decode W order_0 order_1 len (bytes [32; length data] ++ data ++ t) = Ok (data, t).
Proof.
  intros HW. pose proof (pow2_W_ge_8 W HW) as H8.
  assert (G : forall (data t : list byte),
    length data < 128 -> (N.of_nat (length data) < 2 ^ N.of_nat W)%N ->
    decode W order_0 order_1 len (bytes [32; length data] ++ data ++ t) = Ok (data, t)).
  { intros data t Hl Hw.
    set (b := match Byte.of_nat (length data) with Some b => b | None => Byte.x00 end).
    assert (Hb : Byte.to_nat b = length data) by (apply byte_of_nat_to_nat; lia).
    change (bytes [32; length data] ++ data ++ t) with (Byte.x20 :: b :: data ++ t).
    unfold decode. cbn [decode_fuel].
    erewrite bind_ok by reflexivity. cbn [contains Nat.testbit Byte.to_nat].
    erewrite bind_ok.
    2:{ apply read_usize_ok; [apply uint7_one_byte; lia | rewrite Hb; exact Hw]. }
    rewrite Nat2N.id, Hb.
    change (contains 32 STRIPE) with false. change (contains 32 PACK) with false.
    change (contains 32 RLE) with false. change (contains 32 CAT) with true.
    cbv beta iota. cbv [bind ret]. rewrite read_exact_app. reflexivity. }
  split; [|exact G].
  apply (G noodles []); cbn; lia.
Qed.

(** * Witnesses *)

Lemma decode_cat_noodles_witness :
  3 <= 64 /\ decode 64 no_core no_core 0 (bytes [32; 7] ++ noodles) = Ok (noodles, []) /\
  decode 64 no_core no_core 0 (bytes [32; 3] ++ bytes [1; 2; 3] ++ bytes [9])
    = Ok (bytes [1; 2; 3], bytes [9]).
Proof.
  destruct (decode_cat_noodles 64 no_core no_core 0 ltac:(lia)) as [H1 H2].
  split; [lia|]. split; [exact H1|].
  exact (H2 (bytes [1; 2; 3]) (bytes [9]) ltac:(cbn; lia) ltac:(vm_compute; reflexivity)).
Defined.

Lemma decode_stripe_zero_count_witness :
  contains (Byte.to_nat Byte.x08) STRIPE = true /\
  (if contains (Byte.to_nat Byte.x08) NO_SIZE then ret 0 else read_usize 64)
    [Byte.x05; Byte.x00] = Ok (5, [Byte.x00]) /\
  decode 64 no_core no_core 0 [Byte.x08; Byte.x05; Byte.x00] = Ok (repeat Byte.x00 5, []).
Proof.
  split; [reflexivity|]. split; [vm_compute; reflexivity|].
  apply (decode_stripe_zero_count 64 no_core no_core Byte.x08 [Byte.x05; Byte.x00] 0 5 []);
    [reflexivity|vm_compute; reflexivity].
Defined.

Lemma rans_get_symbol_from_freq_last_witness :
  let cum := (0 :: repeat 4 256)%N in
  length cum = 257 /\
  (forall i, i < 256 -> (nth i cum 0 <= nth (S i) cum 0)%N) /\
  nth 0 cum 0%N = 0%N /\ nth 256 cum 0%N = 4%N /\ (2 < 4)%N /\
  exists s, rans_get_symbol_from_freq cum 2 = Ok s /\ s <= 255 /\
            (nth s cum 0 <= 2)%N /\
            (forall i, s < i <= 255 -> (2 < nth i cum 0)%N).
Proof.
  intros cum.
  assert (Hm : forall i, i < 256 -> (nth i cum 0 <= nth (S i) cum 0)%N).
  { intros i Hi. unfold cum. cbn [nth].
    rewrite (nth_indep _ _ 4%N) by (rewrite repeat_length; lia). rewrite nth_repeat.
    destruct i as [|i]; [lia|]. cbn [nth].
    rewrite (nth_indep _ _ 4%N) by (rewrite repeat_length; lia). rewrite nth_repeat. lia. }
  split; [reflexivity|]. split; [exact Hm|]. split; [reflexivity|]. split; [reflexivity|].
  split; [lia|].
  apply (rans_get_symbol_from_freq_last cum 4 2); [reflexivity|exact Hm|reflexivity|reflexivity|lia].
Defined.

Lemma rans_renorm_nx16_spec_witness :
  (1 < 2 ^ 32)%N /\ rans_renorm_nx16 1 [Byte.x00; Byte.x00] = Ok (65536%N, []).
Proof.
  assert (H : (1 < 2 ^ 32)%N) by lia. split; [exact H|].
  destruct (rans_renorm_nx16_spec 1 [Byte.x00; Byte.x00] H) as [H1 _].
  rewrite (H1 ltac:(lia) Byte.x00 Byte.x00 [] eq_refl). reflexivity.
Defined.

Lemma decode_pack_meta_spec_witness :
  decode_pack_meta 64 [Byte.x00] = Err InvalidData /\
  decode_pack_meta 64 (Byte.x02 :: bytes [7; 9; 3]) = Ok ((bytes [7; 9], 2, 3), []).
Proof.
  destruct (decode_pack_meta_spec 64 Byte.x02 (bytes [7; 9; 3])) as (_ & _ & H3).
  split.
  - apply (proj1 (decode_pack_meta_spec 64 Byte.x00 [])). reflexivity.
  - rewrite (H3 (bytes [7; 9]) (bytes [3])); [vm_compute; reflexivity|discriminate|reflexivity|reflexivity].
Defined.

Lemma rans_decode_stripe_layout_witness :
  Byte.to_nat Byte.x04 = 4 /\ 0 < 4 /\
  rans_decode_stripe 64 read_exact 4 4 (Byte.x04 :: bytes [1; 1; 1; 1; 65; 66; 67; 68])
    = Ok (bytes [65; 66; 67; 68], []) /\
  exists clens s2 ts,
    read_clens 64 4 (bytes [1; 1; 1; 1; 65; 66; 67; 68]) = Ok (clens, s2) /\
    calls read_exact (map (fun j => 4 / 4 + (if j <? 4 mod 4 then 1 else 0)) (seq 0 4)) s2 ts [] /\
    apply_writes
      (flat_map (fun j => map (fun i => (i * 4 + j, nth i (nth j ts []) Byte.x00))
                              (seq 0 (4 / 4 + (if j <? 4 mod 4 then 1 else 0))))
                (seq 0 4))
      (repeat Byte.x00 4) = Some (bytes [65; 66; 67; 68]).
Proof.
  assert (H : rans_decode_stripe 64 read_exact 4 4 (Byte.x04 :: bytes [1; 1; 1; 1; 65; 66; 67; 68])
    = Ok (bytes [65; 66; 67; 68], [])) by (vm_compute; reflexivity).
  split; [reflexivity|]. split; [lia|]. split; [exact H|].
  exact (rans_decode_stripe_layout 64 read_exact 4 4 Byte.x04 4 _ _ _ eq_refl ltac:(lia) H).
Defined.

Lemma rans_decode_stripe_exact_cover_witness :
  Byte.to_nat Byte.x04 = 4 /\ 0 < 4 /\
  rans_decode_stripe 64 read_exact 5 4 (Byte.x04 :: bytes [2; 1; 1; 1; 65; 69; 66; 67; 68])
    = Ok (bytes [65; 66; 67; 68; 69], []) /\
  length (bytes [65; 66; 67; 68; 69]) = 5 /\
  (forall j i, j < 4 -> i < 5 / 4 + (if j <? 5 mod 4 then 1 else 0) -> i * 4 + j < 5) /\
  (forall k, k < 5 -> exists j i,
     j < 4 /\ i < 5 / 4 + (if j <? 5 mod 4 then 1 else 0) /\ i * 4 + j = k /\
     forall j' i', j' < 4 -> i' < 5 / 4 + (if j' <? 5 mod 4 then 1 else 0) ->
       i' * 4 + j' = k -> j' = j /\ i' = i) /\
  exists clens s2 ts,
    read_clens 64 4 (bytes [2; 1; 1; 1; 65; 69; 66; 67; 68]) = Ok (clens, s2) /\
    calls read_exact (map (fun j => 5 / 4 + (if j <? 5 mod 4 then 1 else 0)) (seq 0 4)) s2 ts [] /\
    forall k, k < 5 ->
      nth_error (bytes [65; 66; 67; 68; 69]) k = Some (nth (k / 4) (nth (k mod 4) ts []) Byte.x00).
Proof.
  assert (H : rans_decode_stripe 64 read_exact 5 4 (Byte.x04 :: bytes [2; 1; 1; 1; 65; 69; 66; 67; 68])
    = Ok (bytes [65; 66; 67; 68; 69], [])) by (vm_compute; reflexivity).
  split; [reflexivity|]. split; [lia|]. split; [exact H|].
  exact (rans_decode_stripe_exact_cover 64 read_exact 5 4 Byte.x04 _ _ _ eq_refl ltac:(lia) H).
Defined.

Lemma decode_output_length_witness :
  decode 64 no_core no_core 0 (Byte.x20 :: Byte.x07 :: noodles) = Ok (noodles, []) /\
  contains (Byte.to_nat Byte.x20) NO_SIZE = false /\
  exists v s', read_uint7 (Byte.x07 :: noodles) = Ok (v, s') /\ length noodles = N.to_nat v.
Proof.
  assert (H : decode 64 no_core no_core 0 (Byte.x20 :: Byte.x07 :: noodles) = Ok (noodles, []))
    by (vm_compute; reflexivity).
  split; [exact H|]. split; [reflexivity|].
  exact (proj2 (proj1 (decode_output_length 64 no_core no_core 0 Byte.x20 (Byte.x07 :: noodles))
                  noodles [] H) eq_refl).
Defined.

Lemma decode_truncated_eof_witness :
  decode 64 no_core no_core 0 ((bytes [32; 7] ++ noodles) ++ []) = Ok (noodles, []) /\
  bytes [32; 7] ++ noodles = bytes [32; 7; 110] ++ bytes [111; 111; 100; 108; 101; 115] /\
  decode 64 no_core no_core 0 (bytes [32; 7; 110]) = Err UnexpectedEof.
Proof.
  assert (H : decode 64 no_core no_core 0 ((bytes [32; 7] ++ noodles) ++ []) = Ok (noodles, []))
    by (vm_compute; reflexivity).
  assert (Hu : bytes [32; 7] ++ noodles = bytes [32; 7; 110] ++ bytes [111; 111; 100; 108; 101; 115])
    by reflexivity.
  split; [exact H|]. split; [exact Hu|].
  apply (decode_truncated_eof 64 no_core no_core 0 _ [] noodles H _ _ Hu). discriminate.
Defined.

(** * Further properties of the decoder *)

(** ** [u32] lane arithmetic *)

Lemma u32_shl_1 oc bits : (bits < 32)%N -> u32_shl oc 1 bits = Ok (2 ^ bits)%N.
Proof.
  intros Hb. unfold u32_shl. apply N.ltb_lt in Hb as Hb'. rewrite Hb'.
  rewrite N.mul_1_l, N.mod_small; [reflexivity|]. apply N.pow_lt_mono_r; lia.
Qed.

Lemma cum_freq_ok oc r bits :
  (bits < 32)%N -> rans_get_cumulative_freq_nx16 oc r bits = Ok (r mod 2 ^ bits)%N.
Proof.
  intros Hb. unfold rans_get_cumulative_freq_nx16. rewrite u32_shl_1 by exact Hb.
  cbn [rbind]. unfold u32_sub.
  assert (Hp : (1 <= 2 ^ bits)%N)
    by (assert (2 ^ bits <> 0)%N by (apply N.pow_nonzero; lia); lia).
  apply N.leb_le in Hp as Hp'. rewrite Hp'. cbn [rbind].
  replace (2 ^ bits - 1)%N with (N.ones bits) by (rewrite N.ones_equiv; lia).
  rewrite N.land_ones. reflexivity.
Qed.

Lemma advance_ok oc r c f bits :
  (r < 2 ^ 32)%N -> (bits < 32)%N -> (c <= r mod 2 ^ bits)%N -> (f <= 2 ^ bits)%N ->
  rans_advance_step_nx16 oc r c f bits = Ok (f * (r / 2 ^ bits) + r mod 2 ^ bits - c)%N /\
  (f * (r / 2 ^ bits) + r mod 2 ^ bits - c <= r)%N.
Proof.
  intros Hr Hb Hc Hf.
  assert (Hp : (2 ^ bits <> 0)%N) by (apply N.pow_nonzero; lia).
  pose proof (N.div_mod r (2 ^ bits) Hp) as Hdm.
  assert (Hq : (f * (r / 2 ^ bits) <= 2 ^ bits * (r / 2 ^ bits))%N)
    by (apply N.mul_le_mono_r; exact Hf).
  assert (Hle : (f * (r / 2 ^ bits) + r mod 2 ^ bits <= r)%N) by lia.
  split; [|lia].
  unfold rans_advance_step_nx16, u32_shr. apply N.ltb_lt in Hb as Hb'. rewrite Hb'.
  cbn [rbind]. unfold u32_mul, u32_wrap.
  replace (f * (r / 2 ^ bits) <? 2 ^ 32)%N with true by (symmetry; apply N.ltb_lt; lia).
  cbn [rbind]. rewrite u32_shl_1 by exact Hb. cbn [rbind]. unfold u32_sub at 1.
  assert (H1 : (1 <= 2 ^ bits)%N) by lia.
  apply N.leb_le in H1. rewrite H1. cbn [rbind].
  replace (2 ^ bits - 1)%N with (N.ones bits) by (rewrite N.ones_equiv; lia).
  rewrite N.land_ones. unfold u32_add, u32_wrap.
  replace (f * (r / 2 ^ bits) + r mod 2 ^ bits <? 2 ^ 32)%N with true
    by (symmetry; apply N.ltb_lt; lia).
  cbn [rbind]. unfold u32_sub.
  replace (c <=? f * (r / 2 ^ bits) + r mod 2 ^ bits)%N with true
    by (symmetry; apply N.leb_le; rewrite N.add_comm; apply (N.le_trans _ _ _ Hc), N.le_add_r).
  reflexivity.
Qed.

Lemma renorm_cases r s :
  (0 < r < 2 ^ 31)%N ->
  rans_renorm_nx16 r s = Err UnexpectedEof \/
  exists r' s', rans_renorm_nx16 r s = Ok (r', s') /\ (2 ^ 15 <= r' < 2 ^ 31)%N.
Proof.
  intros Hr. unfold rans_renorm_nx16.
  destruct (r <? 2 ^ 15)%N eqn:Hl.
  - apply N.ltb_lt in Hl. unfold read_u16_le, bind, read_exact.
    destruct s as [|b0 [|b1 s0]]; [left; reflexivity|left; reflexivity|right].
    cbn -[N.mul N.add N.pow N.shiftl N.modulo N.ltb N.of_nat].
    pose proof (Byte.to_nat_bounded b0). pose proof (Byte.to_nat_bounded b1).
    rewrite N.shiftl_mul_pow2. rewrite N.mod_small by lia.
    replace (_ <? _)%N with true by (symmetry; apply N.ltb_lt; lia).
    eexists _, _. split; [reflexivity|].
    change (2 ^ 16)%N with 65536%N. change (2 ^ 15)%N with 32768%N in *.
    change (2 ^ 31)%N with 2147483648%N in *. lia.
  - apply N.ltb_ge in Hl. right. exists r, s. split; [reflexivity|lia].
Qed.

(** Advancing a lane: with a 32-bit state [r], a shift [bits < 32], a
    cumulative value [c] at most the slot [r mod 2^bits] and a frequency
    [f] at most [2^bits], neither [rans_get_cumulative_freq_nx16] nor
    [rans_advance_step_nx16] overflows, in a debug or a release build:
    the slot is [r mod 2^bits], the new state is
    [f * (r / 2^bits) + slot - c], and it is at most [r]. *)
Theorem rans_advance_step_nx16_no_overflow oc r c f bits :
  (r < 2 ^ 32)%N -> (bits < 32)%N -> (c <= r mod 2 ^ bits)%N -> (f <= 2 ^ bits)%N ->
  rans_get_cumulative_freq_nx16 oc r bits = Ok (r mod 2 ^ bits)%N /\
  rans_advance_step_nx16 oc r c f bits = Ok (f * (r / 2 ^ bits) + r mod 2 ^ bits - c)%N /\
  (f * (r / 2 ^ bits) + r mod 2 ^ bits - c <= r)%N.
Proof.
  intros Hr Hb Hc Hf. split; [apply cum_freq_ok; exact Hb|].
  apply advance_ok; assumption.
Qed.

(** One lane decoding step keeps the lane state in [[2^15, 2^31)]: for a
    257-entry cumulative table that is monotone, starts at 0 and ends at
    [2^bits] with [bits <= 15], and a state [r] in [[2^15, 2^31)], the
    slot [rans_get_cumulative_freq_nx16], the symbol
    [rans_get_symbol_from_freq] and the advanced state
    [rans_advance_step_nx16] (with that symbol's cumulative value and
    frequency) are computed without a panic in either build, and
    [rans_renorm_nx16] then either fails with [UnexpectedEof] or yields a
    state in [[2^15, 2^31)] again. *)
Theorem rans_lane_step_interval oc (cum : list N) (bits r : N) (s : list byte) :
  length cum = 257 ->
  (forall i, i < 256 -> (nth i cum 0 <= nth (S i) cum 0)%N) ->
  nth 0 cum 0%N = 0%N -> nth 256 cum 0%N = (2 ^ bits)%N ->
  (bits <= 15)%N -> (2 ^ 15 <= r < 2 ^ 31)%N ->
  exists slot sym r',
    rans_get_cumulative_freq_nx16 oc r bits = Ok slot /\
    rans_get_symbol_from_freq cum slot = Ok sym /\
    rans_advance_step_nx16 oc r (nth sym cum 0%N) (nth (S sym) cum 0%N - nth sym cum 0%N)%N bits
      = Ok r' /\
    (rans_renorm_nx16 r' s = Err UnexpectedEof \/
     exists r'' s', rans_renorm_nx16 r' s = Ok (r'', s') /\ (2 ^ 15 <= r'' < 2 ^ 31)%N).
Proof.
  intros Hlen Hm H0 Htot Hb Hr.
  assert (Hb32 : (bits < 32)%N) by lia.
  assert (Hp : (2 ^ bits <> 0)%N) by (apply N.pow_nonzero; lia).
  assert (Hslot : (r mod 2 ^ bits < 2 ^ bits)%N) by (apply N.mod_lt; exact Hp).
  destruct (symbol_scan_last cum (r mod 2 ^ bits) 255 0 Hlen Hm eq_refl
              ltac:(rewrite H0; apply N.le_0_l)) as (sym & Hs & Hsle & Hc & Hgt).
  assert (Hnext : (r mod 2 ^ bits < nth (S sym) cum 0)%N).
  { destruct (Nat.lt_ge_cases sym 255) as [Hl|Hl].
    - apply Hgt. lia.
    - replace (S sym) with 256 by lia. rewrite Htot. exact Hslot. }
  assert (Htop : (nth (S sym) cum 0 <= 2 ^ bits)%N).
  { rewrite <- Htot. apply (cum_monotone cum Hm); lia. }
  set (c := nth sym cum 0%N) in *. set (f := (nth (S sym) cum 0 - c)%N).
  assert (Hf : (1 <= f <= 2 ^ bits)%N) by (unfold f; lia).
  destruct (advance_ok oc r c f bits ltac:(lia) Hb32 Hc ltac:(lia)) as [Ha Hle].
  assert (Hq : (1 <= r / 2 ^ bits)%N).
  { assert (H2 : (0 < 2 ^ bits <= r)%N).
    { split; [lia|]. apply (N.le_trans _ (2 ^ 15)); [apply N.pow_le_mono_r; lia|lia]. }
    pose proof (N.div_str_pos r (2 ^ bits) H2). lia. }
  assert (Hfq : (1 <= f * (r / 2 ^ bits))%N) by nia.
  exists (r mod 2 ^ bits)%N, sym, (f * (r / 2 ^ bits) + r mod 2 ^ bits - c)%N.
  split; [apply cum_freq_ok; exact Hb32|]. split; [exact Hs|]. split; [exact Ha|].
  apply renorm_cases.
  remember (f * (r / 2 ^ bits))%N as X. remember (r mod 2 ^ bits)%N as Y. lia.
Qed.

(** ** The alphabet reader *)

Lemma alpha_step_decreases oc st s brk st' s' :
  alpha_step oc st s = Ok ((brk, st'), s') -> alpha_measure st' s' < alpha_measure st s.
Proof.
  destruct st as [[[al sym] last] rle]. unfold alpha_step.
  destruct (set_nth al sym true) as [al1|]; [|discriminate].
  intros H. apply bind_inv in H as ([sym' rle'] & s1 & H1 & H2).
  unfold ret in H2. injection H2 as <- <- <-. simpl.
  destruct (0 <? rle) eqn:Hr.
  - apply Nat.ltb_lt in Hr. apply bind_inv in H1 as (x & s2 & Hx & Hk).
    unfold u8_incr in Hx.
    destruct (sym <? 255); [|destruct oc]; try discriminate;
      injection Hx as <- <-; injection Hk as _ <- <-; lia.
  - apply Nat.ltb_ge in Hr. apply bind_inv in H1 as (b & s2 & Hb & Hk).
    destruct s as [|b0 s]; [discriminate|]. injection Hb as <- <-.
    destruct ((last <? 255) && (Byte.to_nat b0 =? last + 1)).
    + apply bind_inv in Hk as (r & s3 & Hr' & Hk).
      destruct s as [|b1 s2]; [discriminate|]. injection Hr' as <- <-.
      injection Hk as _ <- <-. pose proof (Byte.to_nat_bounded b1). simpl. lia.
    + injection Hk as _ <- <-. simpl. lia.
Qed.

Lemma alpha_loop_stable oc f1 f2 st s :
  alpha_measure st s < f1 -> alpha_measure st s < f2 ->
  alpha_loop oc f1 st s = alpha_loop oc f2 st s.
Proof.
  revert f2 st s. induction f1 as [|f1 IH]; intros f2 st s H1 H2; [lia|].
  destruct f2 as [|f2]; [lia|]. cbn [alpha_loop].
  apply bind_ext_ok. intros [brk st'] s' Hs.
  pose proof (alpha_step_decreases _ _ _ _ _ _ Hs).
  destruct brk; [reflexivity|]. apply IH; lia.
Qed.

Lemma robust_u8_incr oc x : Robust (u8_incr oc x).
Proof. unfold u8_incr. solve_robust. Qed.
#[local] Hint Resolve robust_u8_incr : robust.

Lemma robust_alpha_step oc st : Robust (alpha_step oc st).
Proof.
  destruct st as [[[al sym] last] rle]. unfold alpha_step. solve_robust.
Qed.
#[local] Hint Resolve robust_alpha_step : robust.

Lemma robust_alpha_loop oc f st : Robust (alpha_loop oc f st).
Proof. revert st. induction f; intros st; simpl; solve_robust. Qed.
#[local] Hint Resolve robust_alpha_loop : robust.

(** [read_alphabet] with any budget of at least [256] iterations per
    input byte. *)
Lemma read_alphabet_fuel oc F s :
  256 * length s <= F ->
  read_alphabet oc s =
    (sym <- read_u8 ;; alpha_loop oc F (repeat false 256, sym, sym, 0)) s.
Proof.
  intros HF. unfold read_alphabet. destruct s as [|b s]; [reflexivity|].
  cbn [bind read_u8]. apply alpha_loop_stable; simpl in *; lia.
Qed.

Lemma set_nth_some {A} (l : list A) k v :
  k < length l -> exists l', set_nth l k v = Some l'.
Proof.
  revert k. induction l as [|y l IH]; intros [|k] Hk; simpl in *; try lia.
  - eexists. reflexivity.
  - destruct (IH k ltac:(lia)) as [l' E]. rewrite E. eexists. reflexivity.
Qed.

Lemma set_nth_nth {A} (l : list A) k v l' d x :
  set_nth l k v = Some l' -> nth x l' d = if x =? k then v else nth x l d.
Proof.
  intros H. destruct (set_nth_nth_error _ _ _ _ H) as [Hk Ho].
  destruct (Nat.eqb_spec x k) as [->|Hx].
  - apply nth_error_nth. exact Hk.
  - specialize (Ho x Hx).
    destruct (nth_error l x) as [y|] eqn:E.
    + rewrite (nth_error_nth _ _ _ Ho), (nth_error_nth _ _ _ E). reflexivity.
    + apply nth_error_None in E. apply nth_error_None in Ho.
      rewrite !nth_overflow by lia. reflexivity.
Qed.

Lemma robust_alpha_reader oc F :
  Robust (sym <- read_u8 ;; alpha_loop oc F (repeat false 256, sym, sym, 0)).
Proof. solve_robust. Qed.

(** [read_alphabet] reads its input strictly in order and never looks
    ahead, in a debug or a release build: if it succeeds on [u ++ t]
    leaving [t] unread, it returns the same alphabet whatever follows [u],
    and on every input cut short inside [u] it fails with
    [UnexpectedEof] (it does not panic). *)
Theorem read_alphabet_prefix oc u t al :
  read_alphabet oc (u ++ t) = Ok (al, t) ->
  (forall t', read_alphabet oc (u ++ t') = Ok (al, t')) /\
  (forall p q, u = p ++ q -> q <> [] -> read_alphabet oc p = Err UnexpectedEof).
Proof.
  intros H. split.
  - intros t'.
    set (F := 256 * (length (u ++ t) + length (u ++ t'))).
    rewrite (read_alphabet_fuel oc F) in H |- * by (unfold F; lia).
    destruct (robust_alpha_reader oc F _ _ _ H) as (u0 & Hu & Fr & _).
    apply app_inv_tail in Hu. subst u0. apply Fr.
  - intros p q Hpq Hq.
    set (F := 256 * length (u ++ t)).
    rewrite (read_alphabet_fuel oc F) in H by (unfold F; lia).
    rewrite (read_alphabet_fuel oc F)
      by (unfold F; rewrite Hpq, !length_app; lia).
    destruct (robust_alpha_reader oc F _ _ _ H) as (u0 & Hu & _ & P).
    apply app_inv_tail in Hu. subst u0. exact (P p q Hpq Hq).
Qed.

Lemma alpha_step_release al sym last rle s :
  length al = 256 -> sym < 256 ->
  alpha_step false (al, sym, last, rle) s = Err UnexpectedEof \/
  exists brk al' sym' last' rle' s',
    alpha_step false (al, sym, last, rle) s = Ok ((brk, (al', sym', last', rle')), s') /\
    length al' = 256 /\ sym' < 256.
Proof.
  intros Hl Hs. destruct (set_nth_some al sym true ltac:(lia)) as [al1 E].
  pose proof (set_nth_length _ _ _ _ E) as Hl1.
  unfold alpha_step. rewrite E. destruct (0 <? rle).
  - right. unfold u8_incr. destruct (sym <? 255) eqn:Hs'.
    + apply Nat.ltb_lt in Hs'. do 6 eexists. split; [reflexivity|]. split; [lia|]. lia.
    + do 6 eexists. split; [reflexivity|]. split; [lia|]. lia.
  - destruct s as [|b s]; [left; reflexivity|]. cbv beta iota delta [bind ret read_u8].
    pose proof (Byte.to_nat_bounded b).
    destruct ((last <? 255) && (Byte.to_nat b =? last + 1)).
    + destruct s as [|b1 s]; [left; reflexivity|]. right.
      do 6 eexists. split; [reflexivity|]. split; [lia|]. lia.
    + right. do 6 eexists. split; [reflexivity|]. split; [lia|]. lia.
Qed.

Lemma alpha_loop_release f al sym last rle s :
  length al = 256 -> sym < 256 -> alpha_measure (al, sym, last, rle) s < f ->
  (exists al' s', alpha_loop false f (al, sym, last, rle) s = Ok (al', s') /\
                  length al' = 256) \/
  alpha_loop false f (al, sym, last, rle) s = Err UnexpectedEof.
Proof.
  revert al sym last rle s. induction f as [|f IH]; intros al sym last rle s Hl Hs Hf;
    [lia|].
  cbn [alpha_loop].
  destruct (alpha_step_release al sym last rle s Hl Hs) as
    [E|(brk & al' & sym' & last' & rle' & s' & E & Hl' & Hs')].
  - right. unfold bind. rewrite E. reflexivity.
  - pose proof (alpha_step_decreases _ _ _ _ _ _ E).
    unfold bind at 1 2. rewrite !E. cbv beta iota. destruct brk.
    + left. exists al', s'. split; [reflexivity|exact Hl'].
    + apply IH; [exact Hl'|exact Hs'|lia].
Qed.

(** In a release build [read_alphabet] never panics: on every input it
    either returns a 256-entry alphabet or fails with [UnexpectedEof]. *)
Theorem read_alphabet_release_no_panic s :
  (exists al s', read_alphabet false s = Ok (al, s') /\ length al = 256) \/
  read_alphabet false s = Err UnexpectedEof.
Proof.
  unfold read_alphabet. destruct s as [|b s]; [right; reflexivity|].
  cbn [bind read_u8]. pose proof (Byte.to_nat_bounded b).
  apply alpha_loop_release; [apply repeat_length|lia|simpl; lia].
Qed.

Lemma alpha_step_plain oc al a b s al1 :
  set_nth al a true = Some al1 -> Byte.to_nat b <> a + 1 ->
  alpha_step oc (al, a, a, 0) (b :: s)
    = Ok ((Byte.to_nat b =? 0, (al1, Byte.to_nat b, Byte.to_nat b, 0)), s).
Proof.
  intros E Hb. unfold alpha_step. rewrite E.
  change (0 <? 0) with false. cbv iota.
  erewrite bind_ok.
  2: { erewrite bind_ok by reflexivity.
       rewrite (proj2 (Nat.eqb_neq _ _) Hb), andb_false_r. reflexivity. }
  reflexivity.
Qed.

Lemma alpha_loop_plain oc f al a rest t :
  length al = 256 -> a < 256 -> Forall (fun x => 0 < x < 256) rest ->
  (forall i, S i < length (a :: rest) ->
     nth (S i) (a :: rest) 0 <> nth i (a :: rest) 0 + 1) ->
  length rest < f ->
  exists al', alpha_loop oc f (al, a, a, 0) (bytes (rest ++ [0]) ++ t) = Ok (al', t) /\
    length al' = 256 /\
    forall x, nth x al' false = nth x al false || existsb (Nat.eqb x) (a :: rest).
Proof.
  revert f al a. induction rest as [|h rest IH]; intros f al a Hl Ha Hr Hn Hf;
    (destruct f as [|f]; [simpl in Hf; lia|]);
    destruct (set_nth_some al a true ltac:(lia)) as [al1 E];
    pose proof (set_nth_length _ _ _ _ E) as Hl1; cbn [alpha_loop].
  - change (bytes ([] ++ [0]) ++ t) with (Byte.x00 :: t).
    rewrite (bind_ok _ _ _ _ _
               (alpha_step_plain oc al a Byte.x00 t al1 E ltac:(simpl; lia))).
    cbv beta iota.
    exists al1. split; [reflexivity|]. split; [lia|].
    intros x. rewrite (set_nth_nth _ _ _ _ false x E). cbn [existsb].
    destruct (Nat.eqb_spec x a) as [->|Hx].
    + destruct (nth a al false); reflexivity.
    + destruct (nth x al false); reflexivity.
  - inversion Hr as [|? ? Hh Hr']; subst.
    set (bh := match Byte.of_nat h with Some b => b | None => Byte.x00 end).
    change (bytes ((h :: rest) ++ [0]) ++ t) with (bh :: (bytes (rest ++ [0]) ++ t)).
    assert (Hbh : Byte.to_nat bh = h) by (apply byte_of_nat_to_nat; lia).
    assert (Hha : h <> a + 1) by (apply (Hn 0); simpl; lia).
    rewrite (bind_ok _ _ _ _ _ (alpha_step_plain oc al a bh _ al1 E
               ltac:(rewrite Hbh; exact Hha))).
    rewrite Hbh.
    replace (h =? 0) with false by (symmetry; apply Nat.eqb_neq; lia).
    cbv beta iota.
    destruct (IH f al1 h ltac:(lia) ltac:(lia) Hr'
                (fun i Hi => Hn (S i) ltac:(simpl in *; lia)) ltac:(simpl in Hf; lia))
      as (al' & Hrun & Hl' & Hal').
    exists al'. split; [exact Hrun|]. split; [exact Hl'|].
    intros x. rewrite Hal', (set_nth_nth _ _ _ _ false x E). cbn [existsb].
    destruct (x =? a), (x =? h), (nth x al false), (existsb (Nat.eqb x) rest); reflexivity.
Qed.

(** [read_alphabet] on a plain symbol list: a first symbol [a] (possibly
    0) followed by non-zero symbols, no symbol being one more than the
    one before it (so no run byte is read), then the terminating 0, in a
    debug or a release build, returns the alphabet that marks exactly
    those symbols and leaves the bytes after the terminator unread. *)
Theorem read_alphabet_plain_symbols oc a rest t :
  a < 256 -> Forall (fun x => 0 < x < 256) rest ->
  (forall i, S i < length (a :: rest) ->
     nth (S i) (a :: rest) 0 <> nth i (a :: rest) 0 + 1) ->
  exists al, read_alphabet oc (bytes (a :: rest ++ [0]) ++ t) = Ok (al, t) /\
    length al = 256 /\ forall x, nth x al false = true <-> In x (a :: rest).
Proof.
  intros Ha Hr Hn. unfold read_alphabet.
  cbn [bytes map app]. cbv beta iota delta [bind read_u8].
  rewrite byte_of_nat_to_nat by exact Ha.
  destruct (alpha_loop_plain oc (256 * S (length (bytes (a :: rest ++ [0]) ++ t)))
              (repeat false 256) a rest t (repeat_length _ _) Ha Hr Hn)
    as (al & Hrun & Hl & Hal).
  { cbn [bytes map length app]. rewrite length_app, length_map, length_app. simpl. lia. }
  exists al. split; [exact Hrun|]. split; [exact Hl|].
  intros x. rewrite Hal, nth_repeat, orb_false_l.
  rewrite existsb_exists. split.
  - intros (y & Hy & Hxy). apply Nat.eqb_eq in Hxy. subst. exact Hy.
  - intros Hx. exists x. split; [exact Hx|apply Nat.eqb_refl].
Qed.

(** ** The RLE symbol list of [decode_rle_meta] *)

Lemma mark_symbols_spec m l s :
  length l = 256 ->
  (length s < m -> mark_symbols m l s = Err UnexpectedEof) /\
  (m <= length s -> exists l', mark_symbols m l s = Ok (l', skipn m s) /\
     length l' = 256 /\
     forall x, nth x l' false =
       nth x l false || existsb (Nat.eqb x) (map Byte.to_nat (firstn m s))).
Proof.
  revert l s. induction m as [|m IH]; intros l s Hl.
  - split; [simpl; lia|]. intros _. exists l. split; [reflexivity|]. split; [exact Hl|].
    intros x. simpl. rewrite orb_false_r. reflexivity.
  - destruct s as [|b s].
    + split; [reflexivity|simpl; lia].
    + pose proof (Byte.to_nat_bounded b).
      destruct (set_nth_some l (Byte.to_nat b) true ltac:(lia)) as [l1 E].
      pose proof (set_nth_length _ _ _ _ E) as Hl1.
      destruct (IH l1 s ltac:(lia)) as [IH1 IH2].
      cbn [mark_symbols bind read_u8]. rewrite E. split.
      * intros Hs. apply IH1. simpl in Hs. lia.
      * intros Hs. destruct (IH2 ltac:(simpl in Hs; lia)) as (l' & Hrun & Hl' & Hal).
        exists l'. split; [exact Hrun|]. split; [exact Hl'|].
        intros x. rewrite Hal, (set_nth_nth _ _ _ _ false x E). cbn [firstn map existsb].
        destruct (x =? Byte.to_nat b), (nth x l false); reflexivity.
Qed.

(** The symbol list of an RLE meta stream: a count byte [m] (0 standing
    for 256) and then [m] symbols.  [read_rle_symbols] never panics: with
    fewer than [m] symbol bytes it fails with [UnexpectedEof]; otherwise it
    returns the 256-entry table that marks exactly those [m] symbols, and
    the reader positioned just after them. *)
Theorem read_rle_symbols_spec b s :
  let m := if Byte.to_nat b =? 0 then 256 else Byte.to_nat b in
  (length s < m -> read_rle_symbols (b :: s) = Err UnexpectedEof) /\
  (m <= length s -> exists l, read_rle_symbols (b :: s) = Ok (l, skipn m s) /\
     length l = 256 /\
     forall x, nth x l false = true <-> In x (map Byte.to_nat (firstn m s))).
Proof.
  intros m. unfold read_rle_symbols. cbn [bind read_u8].
  fold m.
  destruct (mark_symbols_spec m (repeat false 256) s (repeat_length _ _)) as [H1 H2].
  split; [exact H1|]. intros Hs. destruct (H2 Hs) as (l & Hrun & Hl & Hal).
  exists l. split; [exact Hrun|]. split; [exact Hl|].
  intros x. rewrite Hal, nth_repeat, orb_false_l, existsb_exists. split.
  - intros (y & Hy & Hxy). apply Nat.eqb_eq in Hxy. subst. exact Hy.
  - intros Hx. exists x. split; [exact Hx|apply Nat.eqb_refl].
Qed.

(** [decode_rle_meta] with an uncompressed meta block (odd
    [rle_meta_len]): after the two lengths it takes exactly
    [rle_meta_len / 2] bytes from the reader, whatever they contain, and
    parses the symbol list from that block alone.  An empty block or one
    with fewer symbols than its count fails with [UnexpectedEof];
    otherwise the result is the table marking exactly the listed symbols,
    the rest of the block (the run lengths) and the pre-RLE length. *)
Theorem decode_rle_meta_raw W order_0 n s rle_meta_len len s1 buf s3 :
  read_usize W s = Ok (rle_meta_len, s1) -> Nat.odd rle_meta_len = true ->
  read_usize W s1 = Ok (len, buf ++ s3) -> length buf = rle_meta_len / 2 ->
  (buf = [] -> decode_rle_meta W order_0 n s = Err UnexpectedEof) /\
  (forall b sy, buf = b :: sy ->
     let m := if Byte.to_nat b =? 0 then 256 else Byte.to_nat b in
     (length sy < m -> decode_rle_meta W order_0 n s = Err UnexpectedEof) /\
     (m <= length sy -> exists l,
        decode_rle_meta W order_0 n s = Ok ((l, skipn m sy, len), s3) /\
        forall x, nth x l false = true <-> In x (map Byte.to_nat (firstn m sy)))).
Proof.
  intros H1 Hodd H2 Hlen.
  assert (Hm : decode_rle_meta W order_0 n s =
               (r <- run_on read_rle_symbols buf ;;
                let '(l, rle_meta_reader) := r in ret (l, rle_meta_reader, len)) s3).
  { unfold decode_rle_meta. rewrite (bind_ok _ _ _ _ _ H1), (bind_ok _ _ _ _ _ H2), Hodd.
    rewrite <- Hlen, (bind_ok _ _ _ _ _ (read_exact_app buf s3)). reflexivity. }
  split.
  - intros ->. rewrite Hm. reflexivity.
  - intros b sy -> m. rewrite Hm. unfold run_on, bind, lift.
    unfold read_rle_symbols. cbn [bind read_u8]. fold m.
    destruct (mark_symbols_spec m (repeat false 256) sy (repeat_length _ _)) as [E1 E2].
    split.
    + intros Hs. rewrite (E1 Hs). reflexivity.
    + intros Hs. destruct (E2 Hs) as (l & Hrun & _ & Hal). rewrite Hrun.
      exists l. split; [reflexivity|].
      intros x. rewrite Hal, nth_repeat, orb_false_l, existsb_exists. split.
      * intros (y & Hy & Hxy). apply Nat.eqb_eq in Hxy. subst. exact Hy.
      * intros Hx. exists x. split; [exact Hx|apply Nat.eqb_refl].
Qed.

(** ** Bounds of the symbol lookup *)

Lemma symbol_scan_agree c1 c2 freq fuel sym :
  sym + fuel = 255 ->
  (forall i, sym < i <= 255 -> nth_error c1 i = nth_error c2 i) ->
  symbol_scan c1 freq fuel sym = symbol_scan c2 freq fuel sym.
Proof.
  revert sym. induction fuel as [|fuel IH]; intros sym Hf Hc; [reflexivity|].
  simpl. destruct (sym <? 255) eqn:Hs; [|reflexivity]. apply Nat.ltb_lt in Hs.
  rewrite (Hc (sym + 1) ltac:(lia)).
  destruct (nth_error c2 (sym + 1)) as [c|]; [|reflexivity].
  destruct (c <=? freq)%N; [|reflexivity]. apply IH; [lia|]. intros i Hi. apply Hc. lia.
Qed.

Lemma symbol_scan_total cum freq fuel sym :
  sym + fuel = 255 -> 256 <= length cum ->
  exists s, symbol_scan cum freq fuel sym = Ok s /\ s <= 255.
Proof.
  revert sym. induction fuel as [|fuel IH]; intros sym Hf Hl.
  - exists sym. split; [reflexivity|lia].
  - simpl. replace (sym <? 255) with true by (symmetry; apply Nat.ltb_lt; lia).
    destruct (nth_error cum (sym + 1)) as [c|] eqn:E.
    + destruct (c <=? freq)%N; [apply IH; lia|]. exists sym. split; [reflexivity|lia].
    + apply nth_error_None in E. lia.
Qed.

Lemma symbol_scan_panic cum freq fuel sym :
  sym + fuel = 255 -> sym < length cum -> length cum < 256 ->
  (forall i, sym < i < length cum -> (nth i cum 0 <= freq)%N) ->
  symbol_scan cum freq fuel sym = Panic.
Proof.
  revert sym. induction fuel as [|fuel IH]; intros sym Hf Hs Hl Hc; [lia|].
  simpl. replace (sym <? 255) with true by (symmetry; apply Nat.ltb_lt; lia).
  destruct (Nat.eq_dec (sym + 1) (length cum)) as [He|He].
  - rewrite (proj2 (nth_error_None cum (sym + 1)) ltac:(lia)). reflexivity.
  - destruct (nth_error cum (sym + 1)) as [c|] eqn:E.
    + pose proof (nth_error_nth _ _ 0%N E) as Hn.
      replace (c <=? freq)%N with true
        by (symmetry; apply N.leb_le; rewrite <- Hn; apply Hc; lia).
      apply IH; [lia|lia|lia|]. intros i Hi. apply Hc. lia.
    + apply nth_error_None in E. lia.
Qed.

(** [rans_get_symbol_from_freq] reads the cumulative table only at the
    indices 1 to 255: two tables that agree there (as present or absent
    entries) give the same result, so entry 0 and every entry past index
    255 never matter.  With at least 256 entries it never panics and
    returns a symbol at most 255; with a table of 1 to 255 entries whose
    entries after the first are all at most the slot, the scan runs off
    the end of the table and panics. *)
Theorem rans_get_symbol_from_freq_bounds (cum : list N) (freq : N) :
  (forall cum' : list N, (forall i, 1 <= i <= 255 -> nth_error cum i = nth_error cum' i) ->
     rans_get_symbol_from_freq cum freq = rans_get_symbol_from_freq cum' freq) /\
  (256 <= length cum -> exists s,
     rans_get_symbol_from_freq cum freq = Ok s /\ s <= 255 /\
     rans_get_symbol_from_freq (firstn 256 cum) freq = Ok s) /\
  (1 <= length cum < 256 -> (forall i, 0 < i < length cum -> (nth i cum 0 <= freq)%N) ->
     rans_get_symbol_from_freq cum freq = Panic).
Proof.
  split; [|split].
  - intros cum' Hc. unfold rans_get_symbol_from_freq.
    apply symbol_scan_agree; [reflexivity|]. intros i Hi. apply Hc. lia.
  - intros Hl. destruct (symbol_scan_total cum freq 255 0 eq_refl Hl) as (s & Hs & Hle).
    exists s. split; [exact Hs|]. split; [exact Hle|].
    unfold rans_get_symbol_from_freq. rewrite <- Hs. apply symbol_scan_agree; [reflexivity|].
    intros i Hi. rewrite nth_error_firstn.
    replace (i <? 256) with true by (symmetry; apply Nat.ltb_lt; lia). reflexivity.
  - intros Hl Hc. apply symbol_scan_panic; [reflexivity|lia|lia|]. intros i Hi. apply Hc. lia.
Qed.

(** ** CAT blocks *)

(** A block whose flags have CAT set and STRIPE, PACK and RLE clear is
    stored raw: after the header [decode] reads exactly the declared
    number of bytes and returns them, or fails with [UnexpectedEof] when
    fewer remain; the core decoders are not used. *)
Theorem decode_cat_raw W order_0 order_1 len (b : byte) s :
  contains (Byte.to_nat b) CAT = true -> contains (Byte.to_nat b) STRIPE = false ->
  contains (Byte.to_nat b) PACK = false -> contains (Byte.to_nat b) RLE = false ->
  decode W order_0 order_1 len (b :: s) =
    (len' <- (if contains (Byte.to_nat b) NO_SIZE then ret len else read_usize W) ;;
     read_exact len') s.
Proof.
  intros Hc Hs Hp Hr. unfold decode. cbn [decode_fuel].
  erewrite bind_ok by reflexivity.
  apply bind_ext_ok. intros len' s' _.
  rewrite Hs, Hp, Hr, Hc. unfold bind, ret.
  destruct (read_exact len' s') as [[data s'']| |]; reflexivity.
Qed.

Lemma advance_sum oc r c f bits :
  (bits < 32)%N -> (f * (r / 2 ^ bits) + r mod 2 ^ bits < 2 ^ 32)%N ->
  rans_advance_step_nx16 oc r c f bits =
    u32_sub oc (f * (r / 2 ^ bits) + r mod 2 ^ bits) c.
Proof.
  intros Hb Hs.
  unfold rans_advance_step_nx16, u32_shr. apply N.ltb_lt in Hb as Hb'. rewrite Hb'.
  cbn [rbind]. unfold u32_mul, u32_wrap.
  replace (f * (r / 2 ^ bits) <? 2 ^ 32)%N with true
    by (symmetry; apply N.ltb_lt; clear -Hs; remember (f * (r / 2 ^ bits))%N as X;
        remember (r mod 2 ^ bits)%N as Y; lia).
  cbn [rbind]. rewrite u32_shl_1 by exact Hb. cbn [rbind]. unfold u32_sub at 1.
  assert (H1 : (1 <= 2 ^ bits)%N) by (pose proof (N.pow_nonzero 2 bits); lia).
  apply N.leb_le in H1. rewrite H1. cbn [rbind].
  replace (2 ^ bits - 1)%N with (N.ones bits) by (rewrite N.ones_equiv; lia).
  rewrite N.land_ones. unfold u32_add, u32_wrap.
  apply N.ltb_lt in Hs. rewrite Hs.
  reflexivity.
Qed.

(** When the 32-bit cumulative value [c] exceeds
    [f * (r >> bits) + slot] (a table inconsistent with the state), the
    final subtraction of [rans_advance_step_nx16] underflows: a debug
    build panics and a release build wraps the state around modulo
    [2^32].  Nothing is assumed of [f]: the bound on [c] already keeps the
    multiplication and the addition in range. *)
Theorem rans_advance_step_nx16_underflow r c f bits :
  (bits < 32)%N -> (c < 2 ^ 32)%N ->
  (f * (r / 2 ^ bits) + r mod 2 ^ bits < c)%N ->
  rans_advance_step_nx16 true r c f bits = Panic /\
  rans_advance_step_nx16 false r c f bits =
    Ok (f * (r / 2 ^ bits) + r mod 2 ^ bits + 2 ^ 32 - c)%N.
Proof.
  intros Hb Hc32 Hc.
  assert (Hs : (f * (r / 2 ^ bits) + r mod 2 ^ bits < 2 ^ 32)%N)
    by (clear -Hc32 Hc; remember (f * (r / 2 ^ bits) + r mod 2 ^ bits)%N as X; lia).
  rewrite !advance_sum by assumption. unfold u32_sub.
  replace (c <=? f * (r / 2 ^ bits) + r mod 2 ^ bits)%N with false
    by (symmetry; apply N.leb_gt; exact Hc).
  split; reflexivity.
Qed.

(** ** Witnesses of the further properties *)

(** Comparisons of [N] constants, decided by evaluation. *)
Ltac N_const := vm_compute; first [reflexivity | intros ?; discriminate].

Lemma rans_advance_step_nx16_no_overflow_witness :
  (70000 < 2 ^ 32)%N /\ (12 < 32)%N /\ (100 <= 70000 mod 2 ^ 12)%N /\ (50 <= 2 ^ 12)%N /\
  rans_get_cumulative_freq_nx16 true 70000 12 = Ok 368%N /\
  rans_advance_step_nx16 true 70000 100 50 12 = Ok 1118%N.
Proof.
  destruct (rans_advance_step_nx16_no_overflow true 70000 100 50 12) as (H1 & H2 & _);
    [N_const..|].
  split; [N_const|]. split; [N_const|]. split; [N_const|]. split; [N_const|].
  split; [exact H1|exact H2].
Defined.

Lemma rans_advance_step_nx16_underflow_witness :
  (4 < 32)%N /\ (200 < 2 ^ 32)%N /\ (100 * (16 / 2 ^ 4) + 16 mod 2 ^ 4 < 200)%N /\
  rans_advance_step_nx16 true 16 200 100 4 = Panic /\
  rans_advance_step_nx16 false 16 200 100 4 = Ok 4294967196%N.
Proof.
  destruct (rans_advance_step_nx16_underflow 16 200 100 4) as [H1 H2]; [N_const..|].
  split; [N_const|]. split; [N_const|]. split; [N_const|].
  split; [exact H1|exact H2].
Defined.

Lemma rans_lane_step_interval_witness :
  let cum := (0 :: repeat 4096 256)%N in
  length cum = 257 /\
  (forall i, i < 256 -> (nth i cum 0 <= nth (S i) cum 0)%N) /\
  nth 0 cum 0%N = 0%N /\ nth 256 cum 0%N = (2 ^ 12)%N /\ (12 <= 15)%N /\
  (2 ^ 15 <= 2 ^ 15 < 2 ^ 31)%N /\
  exists slot sym r',
    rans_get_cumulative_freq_nx16 true (2 ^ 15) 12 = Ok slot /\
    rans_get_symbol_from_freq cum slot = Ok sym /\
    rans_advance_step_nx16 true (2 ^ 15) (nth sym cum 0%N)
      (nth (S sym) cum 0%N - nth sym cum 0%N)%N 12 = Ok r' /\
    (rans_renorm_nx16 r' [Byte.x00; Byte.x00] = Err UnexpectedEof \/
     exists r'' s', rans_renorm_nx16 r' [Byte.x00; Byte.x00] = Ok (r'', s') /\
       (2 ^ 15 <= r'' < 2 ^ 31)%N).
Proof.
  intros cum.
  assert (Hm : forall i, i < 256 -> (nth i cum 0 <= nth (S i) cum 0)%N).
  { intros i Hi. unfold cum. cbn [nth].
    rewrite (nth_indep _ _ 4096%N) by (rewrite repeat_length; lia). rewrite nth_repeat.
    destruct i as [|i]; [lia|]. cbn [nth].
    rewrite (nth_indep _ _ 4096%N) by (rewrite repeat_length; lia). rewrite nth_repeat. lia. }
  assert (Hr : (2 ^ 15 <= 2 ^ 15 < 2 ^ 31)%N) by lia.
  split; [reflexivity|]. split; [exact Hm|]. split; [reflexivity|].
  split; [reflexivity|]. split; [lia|]. split; [exact Hr|].
  exact (rans_lane_step_interval true cum 12 (2 ^ 15) [Byte.x00; Byte.x00]
           eq_refl Hm eq_refl eq_refl ltac:(lia) Hr).
Defined.

Lemma read_alphabet_prefix_witness :
  read_alphabet true (bytes [65; 67; 0] ++ []) = Ok (repeat false 65 ++ [true; false; true] ++ repeat false 188, []) /\
  read_alphabet true (bytes [65; 67; 0] ++ bytes [1; 2]) =
    Ok (repeat false 65 ++ [true; false; true] ++ repeat false 188, bytes [1; 2]) /\
  read_alphabet true (bytes [65; 67]) = Err UnexpectedEof.
Proof.
  assert (H : read_alphabet true (bytes [65; 67; 0] ++ [])
              = Ok (repeat false 65 ++ [true; false; true] ++ repeat false 188, []))
    by (vm_compute; reflexivity).
  destruct (read_alphabet_prefix true _ _ _ H) as [F P].
  split; [exact H|]. split; [apply F|].
  apply (P (bytes [65; 67]) [Byte.x00]); [reflexivity|discriminate].
Defined.

Lemma read_alphabet_plain_symbols_witness :
  65 < 256 /\ Forall (fun x => 0 < x < 256) [67] /\
  (forall i, S i < length [65; 67] -> nth (S i) [65; 67] 0 <> nth i [65; 67] 0 + 1) /\
  exists al, read_alphabet false (bytes (65 :: [67] ++ [0]) ++ []) = Ok (al, []) /\
    length al = 256 /\ forall x, nth x al false = true <-> In x [65; 67].
Proof.
  assert (Hn : forall i, S i < length [65; 67] -> nth (S i) [65; 67] 0 <> nth i [65; 67] 0 + 1).
  { intros [|i] Hi; simpl in *; lia. }
  assert (Hf : Forall (fun x => 0 < x < 256) [67]) by (repeat constructor; lia).
  split; [lia|]. split; [exact Hf|]. split; [exact Hn|].
  exact (read_alphabet_plain_symbols false 65 [67] [] ltac:(lia) Hf Hn).
Defined.

Lemma decode_rle_meta_raw_witness :
  read_usize 64 (bytes [5; 9; 1; 65]) = Ok (5, bytes [9; 1; 65]) /\
  Nat.odd 5 = true /\
  read_usize 64 (bytes [9; 1; 65]) = Ok (9, bytes [1; 65] ++ []) /\
  length (bytes [1; 65]) = 5 / 2 /\
  exists l, decode_rle_meta 64 no_core 4 (bytes [5; 9; 1; 65]) = Ok ((l, [], 9), []) /\
    forall x, nth x l false = true <-> In x [65].
Proof.
  assert (H1 : read_usize 64 (bytes [5; 9; 1; 65]) = Ok (5, bytes [9; 1; 65]))
    by (vm_compute; reflexivity).
  assert (H2 : read_usize 64 (bytes [9; 1; 65]) = Ok (9, bytes [1; 65] ++ []))
    by (vm_compute; reflexivity).
  split; [exact H1|]. split; [reflexivity|]. split; [exact H2|]. split; [reflexivity|].
  destruct (decode_rle_meta_raw 64 no_core 4 _ _ _ _ _ _ H1 eq_refl H2 eq_refl) as [_ H].
  exact (proj2 (H Byte.x01 [Byte.x41] eq_refl) ltac:(simpl; lia)).
Defined.

Lemma decode_cat_raw_witness :
  contains (Byte.to_nat Byte.x20) CAT = true /\ contains (Byte.to_nat Byte.x20) STRIPE = false /\
  contains (Byte.to_nat Byte.x20) PACK = false /\ contains (Byte.to_nat Byte.x20) RLE = false /\
  decode 64 no_core no_core 0 (Byte.x20 :: bytes [3; 1; 2; 3; 4]) = Ok (bytes [1; 2; 3], bytes [4]) /\
  decode 64 no_core no_core 0 (Byte.x20 :: bytes [3; 1; 2]) = Err UnexpectedEof.
Proof.
  split; [reflexivity|]. split; [reflexivity|]. split; [reflexivity|]. split; [reflexivity|].
  split.
  - rewrite (decode_cat_raw 64 no_core no_core 0 Byte.x20 (bytes [3; 1; 2; 3; 4]));
      [vm_compute; reflexivity|reflexivity..].
  - rewrite (decode_cat_raw 64 no_core no_core 0 Byte.x20 (bytes [3; 1; 2]));
      [vm_compute; reflexivity|reflexivity..].
Defined.
